(** * Dashboard widget layout and insight fetch: a shallow embedding of
    [src/index.tsx]

    The development follows the source file top-down: JavaScript strings
    and the [JSON] built-ins used for persistence, the widget catalog, the
    three layout handlers of [App], the start-up read and the persisting
    effect, the render loop, and the briefing widget's fetch logic. *)

From Stdlib Require Import ZArith NArith String Ascii Lia.
From stdpp Require Import base option list.

Local Open Scope N_scope.

(** ** JavaScript strings *)

(** A JavaScript string is a finite sequence of UTF-16 code units. *)
Abbreviation jsstring := (list N).

(** Code units of an ASCII literal. *)
Fixpoint js (s : string) : jsstring :=
  match s with
  | EmptyString => []
  | String c r => N_of_ascii c :: js r
  end.

(** An array slot of [activeWidgets]: a string, or [undefined] ([None]).
    The declared element type is [string]; [undefined] is what reading past
    the end of an array yields, and [moveWidget] can store it. *)
Abbreviation elem := (option jsstring).

(** ** Completions *)

Inductive error := SyntaxError.

(** The outcome of evaluating an expression that may throw. *)
Inductive completion (A : Type) :=
| Returned (a : A)
| Thrown (e : error).
Arguments Returned {A} a.
Arguments Thrown {A} e.

(** ** The [JSON] built-ins *)

Module JSON.

(** Parsed JSON. A number is kept as the literal that was read: its value
    is an IEEE double, which nothing below inspects. An object keeps its
    members as read, in order, a repeated key included (of which
    JavaScript keeps the last value). *)
#[warnings="-register-all"]
Inductive value :=
| JNull
| JBool (b : bool)
| JNumber (literal : jsstring)
| JString (s : jsstring)
| JArray (items : list value)
| JObject (members : list (jsstring * value)).

Definition is_ws (c : N) : bool :=
  (c =? 32) || (c =? 9) || (c =? 10) || (c =? 13).

Fixpoint skip_ws (s : jsstring) : jsstring :=
  match s with
  | c :: r => if is_ws c then skip_ws r else s
  | [] => []
  end.

Definition is_digit (c : N) : bool := (48 <=? c) && (c <=? 57).

Definition hexval (c : N) : option N :=
  if is_digit c then Some (c - 48)
  else if (97 <=? c) && (c <=? 102) then Some (c - 87)
  else if (65 <=? c) && (c <=? 70) then Some (c - 55)
  else None.

Definition hex4 (h1 h2 h3 h4 : N) : option N :=
  a ← hexval h1; b ← hexval h2; c ← hexval h3; d ← hexval h4;
  Some (((a * 16 + b) * 16 + c) * 16 + d).

(** The character after a backslash, other than [u]. *)
Definition unescape (e : N) : option N :=
  if e =? 34 then Some 34          (* quotation mark *)
  else if e =? 92 then Some 92     (* backslash *)
  else if e =? 47 then Some 47     (* slash *)
  else if e =? 98 then Some 8      (* b: backspace *)
  else if e =? 102 then Some 12    (* f: form feed *)
  else if e =? 110 then Some 10    (* n: line feed *)
  else if e =? 114 then Some 13    (* r: carriage return *)
  else if e =? 116 then Some 9     (* t: tab *)
  else None.

Definition push {A} (c : N) (p : option (jsstring * A)) : option (jsstring * A) :=
  '(str, r) ← p; Some (c :: str, r).

(** The characters of a string literal after its opening quote, up to and
    including the closing quote. *)
Fixpoint parse_chars (s : jsstring) : option (jsstring * jsstring) :=
  match s with
  | [] => None
  | c :: r =>
    if c =? 34 then Some ([], r)
    else if c =? 92 then
      match r with
      | [] => None
      | e :: r1 =>
        if e =? 117 then
          match r1 with
          | h1 :: h2 :: h3 :: h4 :: r2 =>
            match hex4 h1 h2 h3 h4 with
            | Some u => push u (parse_chars r2)
            | None => None
            end
          | _ => None
          end
        else
          match unescape e with
          | Some u => push u (parse_chars r1)
          | None => None
          end
      end
    else if c <? 32 then None
    else push c (parse_chars r)
  end.

Fixpoint digits (s : jsstring) : jsstring * jsstring :=
  match s with
  | c :: r => if is_digit c then let '(d, r') := digits r in (c :: d, r') else ([], s)
  | [] => ([], [])
  end.

Definition digits1 (s : jsstring) : option (jsstring * jsstring) :=
  match digits s with
  | ([], _) => None
  | (d, r) => Some (d, r)
  end.

Definition parse_int (s : jsstring) : option (jsstring * jsstring) :=
  match s with
  | c :: r =>
    if c =? 48 then Some ([c], r)
    else if is_digit c then let '(d, r') := digits r in Some (c :: d, r')
    else None
  | [] => None
  end.

Definition parse_frac (s : jsstring) : option (jsstring * jsstring) :=
  match s with
  | c :: r => if c =? 46 then push c (digits1 r) else Some ([], s)
  | [] => Some ([], s)
  end.

Definition parse_sign (s : jsstring) : jsstring * jsstring :=
  match s with
  | c :: r => if (c =? 43) || (c =? 45) then ([c], r) else ([], s)
  | [] => ([], s)
  end.

Definition parse_exp (s : jsstring) : option (jsstring * jsstring) :=
  match s with
  | c :: r =>
    if (c =? 101) || (c =? 69) then
      let '(sg, r1) := parse_sign r in
      '(d, r2) ← digits1 r1; Some (c :: sg ++ d, r2)
    else Some ([], s)
  | [] => Some ([], s)
  end.

Definition parse_number (s : jsstring) : option (jsstring * jsstring) :=
  let '(sg, r0) :=
    match s with
    | c :: r => if c =? 45 then ([c], r) else ([], s)
    | [] => ([], s)
    end in
  '(i, r1) ← parse_int r0;
  '(f, r2) ← parse_frac r1;
  '(e, r3) ← parse_exp r2;
  Some (sg ++ i ++ f ++ e, r3).

(** [expect lit s]: [s] without its prefix [lit]. *)
Fixpoint expect (lit s : jsstring) : option jsstring :=
  match lit, s with
  | [], _ => Some s
  | l :: lit', c :: r => if l =? c then expect lit' r else None
  | _ :: _, [] => None
  end.

(** Recursive descent over the JSON grammar. [parse_value] reads one value
    after optional white space; [parse_elements] and [parse_members] read
    the rest of a non-empty array or object after its opening bracket,
    closing bracket included. The fuel bounds the depth of the calls. *)
Fixpoint parse_value (fuel : nat) (s : jsstring) : option (value * jsstring) :=
  match fuel with
  | O => None
  | S fuel =>
    match skip_ws s with
    | [] => None
    | c :: r =>
      if c =? 34 then '(str, r1) ← parse_chars r; Some (JString str, r1)
      else if c =? 91 then
        match skip_ws r with
        | c1 :: r1 =>
          if c1 =? 93 then Some (JArray [], r1)
          else '(items, r2) ← parse_elements fuel r; Some (JArray items, r2)
        | [] => None
        end
      else if c =? 123 then
        match skip_ws r with
        | c1 :: r1 =>
          if c1 =? 125 then Some (JObject [], r1)
          else '(members, r2) ← parse_members fuel r; Some (JObject members, r2)
        | [] => None
        end
      else if c =? 116 then r1 ← expect (js "rue") r; Some (JBool true, r1)
      else if c =? 102 then r1 ← expect (js "alse") r; Some (JBool false, r1)
      else if c =? 110 then r1 ← expect (js "ull") r; Some (JNull, r1)
      else '(lit, r1) ← parse_number (c :: r); Some (JNumber lit, r1)
    end
  end
with parse_elements (fuel : nat) (s : jsstring) : option (list value * jsstring) :=
  match fuel with
  | O => None
  | S fuel =>
    '(v, r) ← parse_value fuel s;
    match skip_ws r with
    | c :: r1 =>
      if c =? 44 then '(vs, r2) ← parse_elements fuel r1; Some (v :: vs, r2)
      else if c =? 93 then Some ([v], r1)
      else None
    | [] => None
    end
  end
with parse_members (fuel : nat) (s : jsstring)
    : option (list (jsstring * value) * jsstring) :=
  match fuel with
  | O => None
  | S fuel =>
    match skip_ws s with
    | c :: r =>
      if c =? 34 then
        '(k, r1) ← parse_chars r;
        match skip_ws r1 with
        | c1 :: r2 =>
          if c1 =? 58 then
            '(v, r3) ← parse_value fuel r2;
            match skip_ws r3 with
            | c3 :: r4 =>
              if c3 =? 44 then
                '(ms, r5) ← parse_members fuel r4; Some ((k, v) :: ms, r5)
              else if c3 =? 125 then Some ([(k, v)], r4)
              else None
            | [] => None
            end
          else None
        | [] => None
        end
      else None
    | [] => None
    end
  end.

(** [JSON.parse(text)]: one value, white space around it, nothing else.
    Every nested call consumes input, so the fuel given here is never what
    makes a text fail ([parse_fuel_enough] below). *)
Definition parse (text : jsstring) : completion value :=
  match parse_value (2 * length text + 2) text with
  | Some (v, r) =>
    match skip_ws r with
    | [] => Returned v
    | _ :: _ => Thrown SyntaxError
    end
  | None => Thrown SyntaxError
  end.

(** *** Serialisation *)

Definition hexdigit (n : N) : N := if n <? 10 then 48 + n else 87 + n.

Definition unicode_escape (c : N) : jsstring :=
  [92; 117; hexdigit (c / 4096); hexdigit ((c / 256) mod 16);
   hexdigit ((c / 16) mod 16); hexdigit (c mod 16)].

Definition is_lead (c : N) : bool := (0xD800 <=? c) && (c <=? 0xDBFF).
Definition is_trail (c : N) : bool := (0xDC00 <=? c) && (c <=? 0xDFFF).

(** One code unit that is not half of a surrogate pair. *)
Definition quote_unit (c : N) : jsstring :=
  if c =? 8 then [92; 98]
  else if c =? 9 then [92; 116]
  else if c =? 10 then [92; 110]
  else if c =? 12 then [92; 102]
  else if c =? 13 then [92; 114]
  else if c =? 34 then [92; 34]
  else if c =? 92 then [92; 92]
  else if (c <? 32) || is_lead c || is_trail c then unicode_escape c
  else [c].

(** The inside of a quoted string: a surrogate pair is copied, every other
    code unit goes through [quote_unit]. *)
Fixpoint quote_body (s : jsstring) : jsstring :=
  match s with
  | [] => []
  | c :: r =>
    match r with
    | d :: r' =>
      if is_lead c && is_trail d then c :: d :: quote_body r'
      else quote_unit c ++ quote_body r
    | [] => quote_unit c
    end
  end.

Definition quote (s : jsstring) : jsstring := 34 :: quote_body s ++ [34].

(** An array slot: [undefined] is written as [null]. *)
Definition stringify_elem (e : elem) : jsstring :=
  match e with
  | Some s => quote s
  | None => js "null"
  end.

Fixpoint join_elems (a : list elem) : jsstring :=
  match a with
  | [] => []
  | [e] => stringify_elem e
  | e :: r => stringify_elem e ++ 44 :: join_elems r
  end.

(** [JSON.stringify(a)] for an array [a] of strings and [undefined]s. *)
Definition stringify (a : list elem) : jsstring :=
  91 :: join_elems a ++ [93].

End JSON.

(** ** Arrays *)

(** [a[i]] for an integer [i]: [undefined] outside [0, a.length). *)
Definition array_get (a : list elem) (i : Z) : elem :=
  if (i <? 0)%Z then None else default None (a !! Z.to_nat i).

(** [a[i] = v] for an integer [i]. A negative [i] names an ordinary
    property, not an element, so the element sequence is unchanged; an
    [i] at or past the end extends the array (slots in between, which
    JavaScript leaves empty and reads back as [undefined], are written
    here as [undefined]). *)
Definition array_set (a : list elem) (i : Z) (v : elem) : list elem :=
  if (i <? 0)%Z then a
  else
    let n := Z.to_nat i in
    if (n <? length a)%nat then <[n := v]> a
    else a ++ replicate (n - length a) None ++ [v].

(** [a.includes(id)] for a string [id]. *)
Definition includes (a : list elem) (id : jsstring) : bool :=
  bool_decide (Some id ∈ a).

(** ** Layout handlers of [App] *)

Inductive direction := left | right.

(** Each handler is given the [activeWidgets] of the current render and
    returns the argument of its [setActiveWidgets] call, or [None] when it
    makes no such call. An index is an integer, as the render loop passes
    it; [[...activeWidgets]] copies the slots, so [newWidgets] starts as the
    same sequence. *)

Definition targetIndex (index : Z) (dir : direction) : Z :=
  match dir with left => (index - 1)%Z | right => (index + 1)%Z end.

(** The other arrow button. *)
Definition opposite (dir : direction) : direction :=
  match dir with left => right | right => left end.

Definition moveWidget (activeWidgets : list elem) (index : Z)
    (dir : direction) : option (list elem) :=
  let newWidgets := activeWidgets in
  let targetIndex := targetIndex index dir in
  if ((0 <=? targetIndex)%Z && (targetIndex <? Z.of_nat (length newWidgets))%Z)
  then
    let rhs := (array_get newWidgets targetIndex, array_get newWidgets index) in
    let newWidgets := array_set newWidgets index rhs.1 in
    let newWidgets := array_set newWidgets targetIndex rhs.2 in
    Some newWidgets
  else None.

(** [i] is the index of a slot of [a]. *)
Definition in_bounds (a : list elem) (i : Z) : Prop :=
  (0 ≤ i < Z.of_nat (length a))%Z.

(** The three shapes a state-setting [moveWidget] call can have: two
    neighbours trade places; the first slot is overwritten by the
    [undefined] read at index -1; the array grows by one slot, the last
    string moving into it and [undefined] taking its place. *)
Inductive moved : list elem → list elem → Prop :=
| moved_swap l1 x y l2 : moved (l1 ++ x :: y :: l2) (l1 ++ y :: x :: l2)
| moved_first x l : moved (x :: l) (None :: l)
| moved_last l x : moved (l ++ [x]) (l ++ [None; x]).

Definition removeWidget (activeWidgets : list elem) (id : jsstring)
    : option (list elem) :=
  Some (filter (λ wId, wId ≠ Some id) activeWidgets).

Definition addWidget (activeWidgets : list elem) (id : jsstring)
    : option (list elem) :=
  if negb (includes activeWidgets id) then Some (activeWidgets ++ [Some id])
  else None.

(** The state seen by the next render: the value passed to
    [setActiveWidgets], or the old one when the handler did not call it. *)
Definition rerender (activeWidgets : list elem) (upd : option (list elem))
    : list elem :=
  default activeWidgets upd.

(** The interface actions on the layout. *)
Inductive action :=
| Move (index : Z) (dir : direction)
| Remove (id : jsstring)
| Add (id : jsstring).

Definition handle (activeWidgets : list elem) (a : action)
    : option (list elem) :=
  match a with
  | Move index dir => moveWidget activeWidgets index dir
  | Remove id => removeWidget activeWidgets id
  | Add id => addWidget activeWidgets id
  end.

Definition step (activeWidgets : list elem) (a : action) : list elem :=
  rerender activeWidgets (handle activeWidgets a).

Definition run (activeWidgets : list elem) (acts : list action) : list elem :=
  foldl step activeWidgets acts.

(** The identifiers held by a sequence, [undefined] slots left out. *)
Definition idents (a : list elem) : list jsstring := omap id a.

Definition default_ids : list jsstring :=
  [js "w-ai"; js "w-stats"; js "w-activity"; js "w-saved"; js "w-timer"].

Definition ids (l : list string) : list elem := (λ s, Some (js s)) <$> l.

(** ** The widget catalog *)

Inductive widget_type := ai_briefing | activity | saved | stats | timer | weather.

Module Widget.
Record WidgetDef := {
  id : jsstring;
  type : widget_type;
  title : jsstring;
  colSpan : Z
}.
End Widget.
Abbreviation WidgetDef := Widget.WidgetDef.

Definition AVAILABLE_WIDGETS : list WidgetDef := [
  {| Widget.id := js "w-ai"; Widget.type := ai_briefing;
     Widget.title := js "Daily Briefing"; Widget.colSpan := 2 |};
  {| Widget.id := js "w-stats"; Widget.type := stats;
     Widget.title := js "Overview"; Widget.colSpan := 1 |};
  {| Widget.id := js "w-activity"; Widget.type := activity;
     Widget.title := js "Recent Activity"; Widget.colSpan := 1 |};
  {| Widget.id := js "w-saved"; Widget.type := saved;
     Widget.title := js "Saved For Later"; Widget.colSpan := 2 |};
  {| Widget.id := js "w-timer"; Widget.type := timer;
     Widget.title := js "Focus Timer"; Widget.colSpan := 1 |}
].

(** ** Start-up read and the persisting effect *)

(** Storage is what [localStorage.getItem("dashboard_widgets")] returns:
    the stored string, or [null] ([None]) when the key is absent. *)

(** Truthiness of a string-or-null: [null] and the empty string are falsy. *)
Definition truthy (s : option jsstring) : bool :=
  match s with
  | Some (_ :: _) => true
  | _ => false
  end.

(** The initializer of the [activeWidgets] state. Its result is typed
    [string[]] in the source, but it is whatever [JSON.parse] returns. *)
Definition load (storage : option jsstring) : completion JSON.value :=
  let saved := storage in
  if truthy saved then JSON.parse (default [] saved)
  else Returned (JSON.JArray (JSON.JString <$> default_ids)).

(** The loaded value seen at its declared type: an array of strings. *)
Definition as_string (v : JSON.value) : option elem :=
  match v with
  | JSON.JString s => Some (Some s)
  | _ => None
  end.

Definition as_layout (v : JSON.value) : option (list elem) :=
  match v with
  | JSON.JArray items => mapM as_string items
  | _ => None
  end.

(** The state of [App] together with the storage it writes to. [writes]
    logs the values passed to [localStorage.setItem], latest first. *)
Record world := {
  activeWidgets : list elem;
  editMode : bool;
  showAddModal : bool;
  storage : option jsstring;
  writes : list jsstring
}.

(** The effect [localStorage.setItem("dashboard_widgets",
    JSON.stringify(activeWidgets))]. *)
Definition persist (w : world) : world :=
  let text := JSON.stringify (activeWidgets w) in
  {| activeWidgets := activeWidgets w;
     editMode := editMode w;
     showAddModal := showAddModal w;
     storage := Some text;
     writes := text :: writes w |}.

(** The world before the first render on storage [st] holding [a]. *)
Definition unmounted (st : option jsstring) (a : list elem) : world :=
  {| activeWidgets := a; editMode := false; showAddModal := false;
     storage := st; writes := [] |}.

(** First render. A thrown initializer aborts it. The inner [None] stands
    for a loaded value that is not an array of strings, a state outside the
    declared type that is not followed further. The effect runs once after
    the first render. *)
Definition mount (st : option jsstring) : completion (option world) :=
  match load st with
  | Thrown e => Thrown e
  | Returned v =>
    Returned (a ← as_layout v; Some (persist (unmounted st a)))
  end.

(** Storage holds the serialised current sequence. *)
Definition persisted (w : world) : Prop :=
  storage w = Some (JSON.stringify (activeWidgets w)).

Inductive event :=
| Layout (a : action)
| ToggleEdit
| OpenAddModal
| CloseAddModal.

(** One interface event, then the re-render it causes. The effect depends
    on [activeWidgets] alone and every [setActiveWidgets] call passes a
    fresh array, so it runs exactly when a handler made that call. *)
Definition dispatch (w : world) (e : event) : world :=
  match e with
  | Layout a =>
    let w1 :=
      match handle (activeWidgets w) a with
      | Some newWidgets =>
        persist {| activeWidgets := newWidgets; editMode := editMode w;
                   showAddModal := showAddModal w; storage := storage w;
                   writes := writes w |}
      | None => w
      end in
    match a with
    | Add _ =>
      {| activeWidgets := activeWidgets w1; editMode := editMode w1;
         showAddModal := false; storage := storage w1; writes := writes w1 |}
    | _ => w1
    end
  | ToggleEdit =>
    {| activeWidgets := activeWidgets w; editMode := negb (editMode w);
       showAddModal := showAddModal w; storage := storage w;
       writes := writes w |}
  | OpenAddModal =>
    {| activeWidgets := activeWidgets w; editMode := editMode w;
       showAddModal := true; storage := storage w; writes := writes w |}
  | CloseAddModal =>
    {| activeWidgets := activeWidgets w; editMode := editMode w;
       showAddModal := false; storage := storage w; writes := writes w |}
  end.

Definition session (w : world) (es : list event) : world := foldl dispatch w es.

(** ** The render loop *)

Inductive content := AIBriefing | Activity | SavedItems | Stats | Timer.

(** [renderWidgetContent]: [None] is the [null] of the default branch. *)
Definition renderWidgetContent (t : widget_type) : option content :=
  match t with
  | ai_briefing => Some AIBriefing
  | activity => Some Activity
  | saved => Some SavedItems
  | stats => Some Stats
  | timer => Some Timer
  | weather => None
  end.

(** A rendered [WidgetContainer] with the actions bound to its buttons. *)
Record container := {
  key : jsstring;
  def : WidgetDef;
  c_editMode : bool;
  onRemove : action;
  onMove : direction → action;
  children : option content
}.

(** [AVAILABLE_WIDGETS.find(w => w.id === widgetId)]. *)
Definition find_def (widgetId : elem) : option WidgetDef :=
  List.find (λ w, bool_decide (Some (Widget.id w) = widgetId)) AVAILABLE_WIDGETS.

(** The callback of [activeWidgets.map]: [None] is the [null] returned for
    an identifier without a catalog entry. *)
Definition render_slot (edit : bool) (index : nat) (widgetId : elem)
    : option container :=
  match widgetId, find_def widgetId with
  | Some wid, Some d =>
    Some {| key := wid; def := d; c_editMode := edit;
            onRemove := Remove wid;
            onMove := λ dir, Move (Z.of_nat index) dir;
            children := renderWidgetContent (Widget.type d) |}
  | _, _ => None
  end.

Definition render_grid (w : world) : list (option container) :=
  imap (render_slot (editMode w)) (activeWidgets w).

(** [availableToAdd] *)
Definition availableToAdd (w : world) : list WidgetDef :=
  List.filter (λ d, negb (includes (activeWidgets w) (Widget.id d)))
    AVAILABLE_WIDGETS.

(** A render pass: the tree it returns and the state it leaves. The body of
    [App] calls no setter and writes no storage while rendering. *)
Definition render (w : world) : list (option container) * world :=
  (render_grid w, w).

(** ** The briefing widget *)

Module Briefing.

Definition msg_not_configured : jsstring :=
  js "API Key not configured. Please set process.env.API_KEY.".

Definition msg_failed : jsstring :=
  js "Could not generate briefing at this time.".

(** The two [useState] cells, the number of [generateContent] calls that
    have not settled yet, and the number of calls started so far. *)
Record state := {
  briefing : option jsstring;
  loading : bool;
  in_flight : nat;
  started : nat
}.

Definition initial : state :=
  {| briefing := None; loading := false; in_flight := 0; started := 0 |}.

(** Not loading, and no call made so far. *)
Definition quiet (s : state) : Prop :=
  loading s = false ∧ in_flight s = 0%nat ∧ started s = 0%nat.

Inductive effect :=
| SetBriefing (text : option jsstring)
| SetLoading (b : bool)
| GenerateContent.

(** How the awaited promise settles; [text] is [response.text]. *)
Inductive settlement :=
| Fulfilled (text : option jsstring)
| Rejected.

(** [generateBriefing] up to its [await]. [API_KEY] is
    [process.env.API_KEY]. *)
Definition generateBriefing (API_KEY : option jsstring) : list effect :=
  if negb (truthy API_KEY) then [SetBriefing (Some msg_not_configured)]
  else [SetLoading true; GenerateContent].

(** [generateBriefing] after its [await]: the rest of [try], or [catch],
    then [finally]. *)
Definition resume (r : settlement) : list effect :=
  match r with
  | Fulfilled text => [SetBriefing text; SetLoading false]
  | Rejected => [SetBriefing (Some msg_failed); SetLoading false]
  end.

Definition perform (s : state) (e : effect) : state :=
  match e with
  | SetBriefing text =>
    {| briefing := text; loading := loading s;
       in_flight := in_flight s; started := started s |}
  | SetLoading b =>
    {| briefing := briefing s; loading := b;
       in_flight := in_flight s; started := started s |}
  | GenerateContent =>
    {| briefing := briefing s; loading := loading s;
       in_flight := S (in_flight s); started := S (started s) |}
  end.

(** The states passed through while performing effects in order. *)
Fixpoint trace (s : state) (es : list effect) : list state :=
  match es with
  | [] => []
  | e :: es' => let s' := perform s e in s' :: trace s' es'
  end.

(** [Trigger] is a call of [generateBriefing]: the mount effect and every
    click on the refresh button. [Settle] is the completion of one call in
    flight. *)
Inductive event :=
| Trigger
| Settle (r : settlement).

Definition react (API_KEY : option jsstring) (s : state) (e : event) : list effect :=
  match e with
  | Trigger => generateBriefing API_KEY
  | Settle r =>
    match in_flight s with
    | O => []
    | S n => resume r
    end
  end.

Definition settle_one (s : state) (e : event) : state :=
  match e, in_flight s with
  | Settle _, S n =>
    {| briefing := briefing s; loading := loading s;
       in_flight := n; started := started s |}
  | _, _ => s
  end.

(** All states passed through while handling the events in order. *)
Fixpoint history (API_KEY : option jsstring) (s : state) (evs : list event)
    : list state :=
  match evs with
  | [] => []
  | e :: evs' =>
    let tr := trace (settle_one s e) (react API_KEY s e) in
    tr ++ history API_KEY (List.last tr (settle_one s e)) evs'
  end.

Definition final (API_KEY : option jsstring) (s : state) (evs : list event) : state :=
  List.last (history API_KEY s evs) s.

(** The state after one event has been handled. *)
Definition after (API_KEY : option jsstring) (s : state) (e : event) : state :=
  List.last (trace (settle_one s e) (react API_KEY s e)) (settle_one s e).

(** The number of [generateBriefing] calls among the events. *)
Fixpoint triggers (evs : list event) : nat :=
  match evs with
  | [] => 0
  | Trigger :: evs' => S (triggers evs')
  | Settle _ :: evs' => triggers evs'
  end.

(** What the widget shows: the pulsing placeholder while [loading], else
    the paragraph [briefing || "Welcome back! ..."]. *)
Inductive view :=
| Skeleton
| Paragraph (text : jsstring).

Definition msg_welcome : jsstring := js "Welcome back! Ready to start your day?".

Definition display (s : state) : view :=
  if loading s then Skeleton
  else Paragraph (if truthy (briefing s) then default [] (briefing s)
                  else msg_welcome).

(** While the placeholder shows, a call is in flight; and no more calls
    are in flight than were started. *)
Definition pending_ok (s : state) : Prop :=
  (loading s = true → (0 < in_flight s)%nat) ∧ (in_flight s ≤ started s)%nat.

(** What a settlement writes into [briefing]. *)
Definition outcome (r : settlement) : option jsstring :=
  match r with
  | Fulfilled text => text
  | Rejected => Some msg_failed
  end.

End Briefing.

(** ** What the rendered interface offers *)

(** The buttons of a [WidgetContainer]: both arrows and the remove button
    exist in edit mode only. *)
Definition container_controls (c : container) : list event :=
  if c_editMode c
  then [Layout (onMove c left); Layout (onMove c right); Layout (onRemove c)]
  else [].

(** The events the tree returned by [App] can raise: the edit toggle, the
    controls of every rendered container, the add button (in edit mode,
    when something can be added), and, while the modal is shown, its close
    button and one button per entry of [availableToAdd]. *)
Definition offered (w : world) : list event :=
  ToggleEdit
  :: mjoin (container_controls <$> omap id (render_grid w))
  ++ (if editMode w && negb (Nat.eqb (length (availableToAdd w)) 0)
      then [OpenAddModal] else [])
  ++ (if showAddModal w
      then CloseAddModal
           :: ((λ d, Layout (Add (Widget.id d))) <$> availableToAdd w)
      else []).

(** A session in which every event is one the current render offers. *)
Fixpoint offered_session (w : world) (es : list event) : Prop :=
  match es with
  | [] => True
  | e :: es' => e ∈ offered w ∧ offered_session (dispatch w e) es'
  end.

(** The identifiers of the catalog. *)
Definition catalog_ids : list jsstring := Widget.id <$> AVAILABLE_WIDGETS.

(** How a slot comes back from [JSON.parse] after [JSON.stringify]. *)
Definition elem_value (e : elem) : JSON.value :=
  match e with
  | Some s => JSON.JString s
  | None => JSON.JNull
  end.

(** ** The focus timer *)

Module Timer.

Record state := {
  time : Z;
  isActive : bool
}.

Definition initial : state := {| time := 25 * 60; isActive := false |}.

(** The body of the effect, run after a render in which [isActive] or
    [time] changed. Its first branch installs the interval and changes no
    state; its second branch calls [setIsActive(false)]. *)
Definition interval_installed (s : state) : bool :=
  isActive s && (0 <? time s)%Z.

Definition effect (s : state) : state :=
  if interval_installed s then s
  else if (time s =? 0)%Z then {| time := time s; isActive := false |}
  else s.

(** [Tick] is the interval callback [setTime(t => t - 1)], which exists
    only while an interval is installed; [Toggle] is the Start/Pause
    button; [Reset] is the reset button. *)
Inductive event := Tick | Toggle | Reset.

(** One event, the render it causes and the effect of that render. *)
Definition step (s : state) (e : event) : state :=
  match e with
  | Tick =>
    if interval_installed s
    then effect {| time := (time s - 1)%Z; isActive := isActive s |}
    else s
  | Toggle => effect {| time := time s; isActive := negb (isActive s) |}
  | Reset => effect {| time := 25 * 60; isActive := false |}
  end.

Definition run (s : state) (evs : list event) : state := foldl step s evs.

(** The same, render by render. [commit] is the state an event sets, which
    the next render shows before the effect of that render has run; the
    interval callback exists, and so sets something, only while an
    interval is installed. *)
Definition commit (s : state) (e : event) : state :=
  match e with
  | Tick =>
    if interval_installed s
    then {| time := (time s - 1)%Z; isActive := isActive s |}
    else s
  | Toggle => {| time := time s; isActive := negb (isActive s) |}
  | Reset => {| time := 25 * 60; isActive := false |}
  end.

(** The renders an event causes: the one that shows the state the event
    has set, and the one after the effect of that render has run (the same
    state again when the effect sets nothing). *)
Definition passes (s : state) (e : event) : list state :=
  [commit s e; effect (commit s e)].

(** All renders caused by the events, in order. *)
Fixpoint rendered (s : state) (evs : list event) : list state :=
  match evs with
  | [] => []
  | e :: evs' => passes s e ++ rendered (effect (commit s e)) evs'
  end.

(** [String(n)] for an integer [n]. *)
Fixpoint uint_units (d : Decimal.uint) : jsstring :=
  match d with
  | Decimal.Nil => []
  | Decimal.D0 d => 48 :: uint_units d
  | Decimal.D1 d => 49 :: uint_units d
  | Decimal.D2 d => 50 :: uint_units d
  | Decimal.D3 d => 51 :: uint_units d
  | Decimal.D4 d => 52 :: uint_units d
  | Decimal.D5 d => 53 :: uint_units d
  | Decimal.D6 d => 54 :: uint_units d
  | Decimal.D7 d => 55 :: uint_units d
  | Decimal.D8 d => 56 :: uint_units d
  | Decimal.D9 d => 57 :: uint_units d
  end.

Definition String_of (n : Z) : jsstring :=
  match n with
  | Z0 => [48]
  | Zpos p => uint_units (Pos.to_uint p)
  | Zneg p => 45 :: uint_units (Pos.to_uint p)
  end.

(** [s.padStart(n, c)] for a one-unit filler [c]. *)
Definition padStart (n : nat) (c : N) (s : jsstring) : jsstring :=
  replicate (n - length s) c ++ s.

Definition minutes (s : state) : Z := (time s / 60)%Z.
Definition seconds (s : state) : Z := Z.rem (time s) 60.

(** The text of the clock face. *)
Definition face (s : state) : jsstring :=
  padStart 2 48 (String_of (minutes s)) ++ 58 :: padStart 2 48 (String_of (seconds s)).

(** The label of the Start/Pause button. *)
Definition button (s : state) : jsstring :=
  if isActive s then js "Pause" else js "Start".

(** What holds of every state the timer can be in. *)
Definition valid (s : state) : Prop :=
  (0 ≤ time s ≤ 25 * 60)%Z ∧ (isActive s = true → 0 < time s)%Z.

End Timer.

(* ================================================================== *)
(** * Theorems *)

(** ** Arrays *)

Section arrays.
Implicit Types (a l : list elem) (x y v : elem) (i j : Z).

Lemma array_get_middle l1 x l2 i :
  i = Z.of_nat (length l1) → array_get (l1 ++ x :: l2) i = x.
Proof.
  intros ->. unfold array_get.
  destruct (Z.ltb_spec (Z.of_nat (length l1)) 0); [lia|].
  by rewrite Nat2Z.id, list_lookup_middle.
Qed.

Lemma array_get_out l i :
  (i < 0 ∨ Z.of_nat (length l) ≤ i)%Z → array_get l i = None.
Proof.
  intros Hi. unfold array_get.
  destruct (Z.ltb_spec i 0); [done|].
  rewrite lookup_ge_None_2; [done|lia].
Qed.

Lemma array_set_middle l1 x l2 i v :
  i = Z.of_nat (length l1) →
  array_set (l1 ++ x :: l2) i v = l1 ++ v :: l2.
Proof.
  intros ->. unfold array_set.
  destruct (Z.ltb_spec (Z.of_nat (length l1)) 0); [lia|].
  rewrite Nat2Z.id.
  destruct (Nat.ltb_spec (length l1) (length (l1 ++ x :: l2))) as [_|Hge].
  - by rewrite insert_app_r_alt, Nat.sub_diag.
  - rewrite length_app in Hge. simpl in Hge. lia.
Qed.

Lemma array_get_middle2 l1 x y l2 i :
  i = (Z.of_nat (length l1) + 1)%Z → array_get (l1 ++ x :: y :: l2) i = y.
Proof.
  intros Hi. rewrite (cons_middle x l1), (assoc_L (++)).
  apply array_get_middle. rewrite length_app. simpl. lia.
Qed.

Lemma array_set_middle2 l1 x y l2 i v :
  i = (Z.of_nat (length l1) + 1)%Z →
  array_set (l1 ++ x :: y :: l2) i v = l1 ++ x :: v :: l2.
Proof.
  intros Hi. rewrite (cons_middle x l1 (y :: l2)), (assoc_L (++)).
  rewrite array_set_middle; [|rewrite length_app; simpl; lia].
  by rewrite <- (assoc_L (++)).
Qed.

Lemma array_set_negative l i v : (i < 0)%Z → array_set l i v = l.
Proof. intros Hi. unfold array_set. by destruct (Z.ltb_spec i 0); [|lia]. Qed.

Lemma array_set_end l i v :
  i = Z.of_nat (length l) → array_set l i v = l ++ [v].
Proof.
  intros ->. unfold array_set.
  destruct (Z.ltb_spec (Z.of_nat (length l)) 0); [lia|].
  rewrite Nat2Z.id.
  destruct (Nat.ltb_spec (length l) (length l)); [lia|].
  by rewrite Nat.sub_diag.
Qed.

Lemma split_adjacent l (n : nat) :
  (S n < length l)%nat →
  ∃ l1 x y l2, l = l1 ++ x :: y :: l2 ∧ length l1 = n.
Proof.
  intros Hn.
  destruct (lookup_lt_is_Some_2 l n) as [x Hx]; [lia|].
  destruct (lookup_lt_is_Some_2 l (S n)) as [y Hy]; [lia|].
  exists (take n l), x, y, (drop (S (S n)) l). split.
  - rewrite <- (take_drop_middle l n x Hx) at 1. f_equal. f_equal.
    by apply drop_S.
  - rewrite length_take. lia.
Qed.
End arrays.

(** ** [moveWidget] *)

Section move.
Implicit Types (l : list elem) (x y : elem) (i : Z) (d : direction).

Lemma moveWidget_out l i d :
  ¬ in_bounds l (targetIndex i d) → moveWidget l i d = None.
Proof.
  unfold in_bounds, moveWidget. intros Hout.
  destruct (Z.leb_spec 0 (targetIndex i d)),
           (Z.ltb_spec (targetIndex i d) (Z.of_nat (length l))); simpl; (done || lia).
Qed.

Lemma moveWidget_in l i d :
  in_bounds l (targetIndex i d) →
  moveWidget l i d =
    Some (array_set (array_set l i (array_get l (targetIndex i d)))
            (targetIndex i d) (array_get l i)).
Proof.
  unfold in_bounds, moveWidget. intros Hin.
  destruct (Z.leb_spec 0 (targetIndex i d)),
           (Z.ltb_spec (targetIndex i d) (Z.of_nat (length l))); simpl; (done || lia).
Qed.

(** Swapping two neighbours, seen from either of them. *)
Lemma moveWidget_right l1 x y l2 i :
  i = Z.of_nat (length l1) →
  moveWidget (l1 ++ x :: y :: l2) i right = Some (l1 ++ y :: x :: l2).
Proof.
  intros Hi. rewrite moveWidget_in.
  2:{ unfold in_bounds, targetIndex. rewrite length_app. simpl. lia. }
  f_equal. unfold targetIndex.
  rewrite (array_get_middle l1 x (y :: l2) i Hi).
  rewrite (array_get_middle2 l1 x y l2 (i + 1)) by lia.
  rewrite (array_set_middle l1 x (y :: l2) i y Hi).
  by rewrite (array_set_middle2 l1 y y l2 (i + 1) x) by lia.
Qed.

Lemma moveWidget_left l1 x y l2 i :
  i = (Z.of_nat (length l1) + 1)%Z →
  moveWidget (l1 ++ x :: y :: l2) i left = Some (l1 ++ y :: x :: l2).
Proof.
  intros Hi. rewrite moveWidget_in.
  2:{ unfold in_bounds, targetIndex. rewrite length_app. simpl. lia. }
  f_equal. unfold targetIndex.
  rewrite (array_get_middle l1 x (y :: l2) (i - 1)) by lia.
  rewrite (array_get_middle2 l1 x y l2 i Hi).
  rewrite (array_set_middle2 l1 x y l2 i x Hi).
  by rewrite (array_set_middle l1 x (x :: l2) (i - 1) y) by lia.
Qed.

(** The two calls whose target is in bounds while the index is not: the
    index just before the first slot, and the index just past the last. *)
Lemma moveWidget_before_first x l :
  moveWidget (x :: l) (-1) right = Some (None :: l).
Proof.
  rewrite moveWidget_in.
  2:{ unfold in_bounds, targetIndex. simpl. lia. }
  f_equal.
Qed.

Lemma moveWidget_past_last l x i :
  i = Z.of_nat (length (l ++ [x])) →
  moveWidget (l ++ [x]) i left = Some (l ++ [None; x]).
Proof.
  intros Hi.
  assert (Hlen : (i - 1)%Z = Z.of_nat (length l)).
  { rewrite Hi, length_app. simpl. lia. }
  rewrite moveWidget_in.
  2:{ unfold in_bounds, targetIndex. lia. }
  f_equal. unfold targetIndex.
  rewrite (array_get_middle l x []) by done.
  rewrite (array_get_out (l ++ [x]) i) by lia.
  rewrite (array_set_end (l ++ [x]) i x) by done.
  rewrite <- (assoc_L (++)). simpl.
  by rewrite (array_set_middle l x [x]) by done.
Qed.

(** Every call that sets the state has one of the shapes of [moved]. *)
Lemma moveWidget_moved l i d l' : moveWidget l i d = Some l' → moved l l'.
Proof.
  intros Hmv.
  destruct (decide (in_bounds l (targetIndex i d))) as [Hin|Hout].
  2:{ by rewrite moveWidget_out in Hmv. }
  unfold in_bounds in Hin. destruct d; unfold targetIndex in Hin.
  - (* left *)
    destruct (decide (i = Z.of_nat (length l))) as [Hi|Hi].
    + destruct (exists_last (l:=l)) as (r & x & ->).
      { intros ->. simpl in Hin. lia. }
      rewrite (moveWidget_past_last r x i Hi) in Hmv.
      injection Hmv as <-. constructor.
    + destruct (split_adjacent l (Z.to_nat (i - 1))) as (l1 & x & y & l2 & -> & Hl1); [lia|].
      rewrite (moveWidget_left l1 x y l2 i) in Hmv by lia.
      injection Hmv as <-. constructor.
  - (* right *)
    destruct (decide (i = (-1)%Z)) as [->|Hi].
    + destruct l as [|x l]; [simpl in Hin; lia|].
      rewrite moveWidget_before_first in Hmv.
      injection Hmv as <-. constructor.
    + destruct (split_adjacent l (Z.to_nat i)) as (l1 & x & y & l2 & -> & Hl1); [lia|].
      rewrite (moveWidget_right l1 x y l2 i) in Hmv by lia.
      injection Hmv as <-. constructor.
Qed.
End move.

(** ** Identifiers kept by the handlers *)

Section identifiers.
Implicit Types (l : list elem) (id : jsstring).

Lemma NoDup_submseteq_l {A} (k m : list A) : NoDup m → k ⊆+ m → NoDup k.
Proof.
  intros Hm (m' & Hsub & Hperm)%submseteq_sublist_l.
  apply (sublist_NoDup k m'); [|done]. by rewrite Hperm.
Qed.

Lemma includes_spec l id : includes l id = true ↔ Some id ∈ l.
Proof. unfold includes. by rewrite bool_decide_eq_true. Qed.

Lemma elem_of_idents l id : id ∈ idents l ↔ Some id ∈ l.
Proof.
  unfold idents. rewrite list_elem_of_omap. split.
  - by intros ([x|] & Hx & [= <-]).
  - intros Hin. by exists (Some id).
Qed.

Lemma idents_moved l l' : moved l l' → idents l' ⊆+ idents l.
Proof.
  unfold idents. destruct 1 as [l1 x y l2|x l|l x].
  - rewrite !omap_app. apply submseteq_skips_l.
    destruct x as [a|], y as [b|]; simpl; try done.
    apply Permutation_submseteq, Permutation_swap.
  - destruct x; simpl; [by apply submseteq_cons|done].
  - rewrite !omap_app. by apply submseteq_skips_l.
Qed.

Lemma idents_filter (P : elem → Prop) `{!∀ x, Decision (P x)} l :
  idents (filter P l) ⊆+ idents l.
Proof.
  unfold idents. induction l as [|[a|] l IH]; [done| |].
  - rewrite filter_cons. destruct (decide (P (Some a))); simpl.
    + by apply submseteq_skip.
    + by apply submseteq_cons.
  - rewrite filter_cons. by destruct (decide (P None)).
Qed.

Lemma handle_idents l a l' :
  handle l a = Some l' →
  idents l' ⊆+ idents l
  ∨ ∃ id, a = Add id ∧ (id ∉ idents l) ∧ idents l' = idents l ++ [id].
Proof.
  destruct a as [i d|id|id]; simpl.
  - intros Hmv%moveWidget_moved. left. by apply idents_moved.
  - intros [= <-]. left. apply idents_filter.
  - unfold addWidget. destruct (includes l id) eqn:Hinc; [done|].
    intros [= <-]. right. exists id. split_and!; [done| |].
    + rewrite elem_of_idents, <- includes_spec. congruence.
    + unfold idents. by rewrite omap_app.
Qed.

Lemma step_NoDup l a : NoDup (idents l) → NoDup (idents (step l a)).
Proof.
  intros Hl. unfold step, rerender.
  destruct (handle l a) as [l'|] eqn:Hh; simpl; [|done].
  destruct (handle_idents l a l' Hh) as [Hsub|(id & _ & Hfresh & ->)].
  - by apply (NoDup_submseteq_l _ (idents l)).
  - apply NoDup_app. split_and!; [done| |apply NoDup_singleton].
    intros x Hx ->%list_elem_of_singleton. done.
Qed.
End identifiers.

(** C2. Starting from a sequence in which no identifier occurs twice, any
    finite run of [addWidget], [removeWidget] and [moveWidget] calls, with
    any identifiers, any integer indices and any directions, ends in a
    sequence in which no identifier occurs twice. *)
Theorem run_no_duplicate_identifier (start : list elem) (acts : list action) :
  NoDup (idents start) → NoDup (idents (run start acts)).
Proof.
  revert start. induction acts as [|a acts IH]; intros start Hstart; [done|].
  simpl. apply IH. by apply step_NoDup.
Qed.

Lemma run_no_duplicate_identifier_witness :
  NoDup (idents (Some <$> default_ids))
  ∧ NoDup (idents (run (Some <$> default_ids)
             [Move 1 right; Remove (js "w-stats"); Add (js "w-ai");
              Move 4 left; Move (-1) right; Add (js "w-stats")])).
Proof.
  assert (H : NoDup (idents (Some <$> default_ids))).
  { apply (bool_decide_unpack _). vm_compute. exact I. }
  split; [exact H|]. exact (run_no_duplicate_identifier _ _ H).
Defined.

(** C5. The end-to-end scenario on the default sequence: move slot 1 to the
    right, remove ["w-stats"], add ["w-stats"] back. *)
Theorem default_layout_scenario :
  let s0 := Some <$> default_ids in
  let s1 := step s0 (Move 1 right) in
  let s2 := step s1 (Remove (js "w-stats")) in
  let s3 := step s2 (Add (js "w-stats")) in
  s0 = ids ["w-ai"; "w-stats"; "w-activity"; "w-saved"; "w-timer"]%string
  ∧ s1 = ids ["w-ai"; "w-activity"; "w-stats"; "w-saved"; "w-timer"]%string
  ∧ s2 = ids ["w-ai"; "w-activity"; "w-saved"; "w-timer"]%string
  ∧ s3 = ids ["w-ai"; "w-activity"; "w-saved"; "w-timer"; "w-stats"]%string.
Proof. vm_compute. by split_and!. Qed.

(** ** Boundaries and swaps of [moveWidget] *)

Lemma array_get_swap_other (l1 : list elem) (x y : elem) (l2 : list elem) (j : Z) :
  j ≠ Z.of_nat (length l1) → j ≠ (Z.of_nat (length l1) + 1)%Z →
  array_get (l1 ++ y :: x :: l2) j = array_get (l1 ++ x :: y :: l2) j.
Proof.
  intros Hj1 Hj2. unfold array_get. destruct (Z.ltb_spec j 0); [done|].
  destruct (decide (Z.to_nat j < length l1)%nat) as [Hlt|Hge].
  - by rewrite !lookup_app_l.
  - rewrite !lookup_app_r by lia.
    destruct (Z.to_nat j - length l1)%nat as [|[|k]] eqn:Hk; [lia|lia|done].
Qed.

Lemma step_move_swap (l : list elem) (i : Z) (d : direction) :
  in_bounds l i → in_bounds l (targetIndex i d) →
  ∃ l1 x y l2,
    l = l1 ++ x :: y :: l2 ∧ step l (Move i d) = l1 ++ y :: x :: l2
    ∧ Z.of_nat (length l1) = Z.min i (targetIndex i d).
Proof.
  unfold in_bounds, step, rerender. intros Hi Ht. simpl.
  destruct d; unfold targetIndex in *.
  - destruct (split_adjacent l (Z.to_nat (i - 1))) as (l1 & x & y & l2 & -> & Hl1); [lia|].
    exists l1, x, y, l2. rewrite (moveWidget_left l1 x y l2 i) by lia.
    split_and!; [done|done|lia].
  - destruct (split_adjacent l (Z.to_nat i)) as (l1 & x & y & l2 & -> & Hl1); [lia|].
    exists l1, x, y, l2. rewrite (moveWidget_right l1 x y l2 i) by lia.
    split_and!; [done|done|lia].
Qed.

(** C6. [moveWidget(0, 'left')] and [moveWidget(length - 1, 'right')] leave
    every sequence as it is; so does every call whose target index is
    outside [0, length), which makes no [setActiveWidgets] call at all; and
    a call whose index and target index are both slots of the sequence
    exchanges the contents of these two slots and changes nothing else. *)
Theorem moveWidget_boundary_noop_and_swap (l : list elem) (i : Z) (d : direction) :
  step l (Move 0 left) = l
  ∧ step l (Move (Z.of_nat (length l) - 1) right) = l
  ∧ (¬ in_bounds l (targetIndex i d) →
       moveWidget l i d = None ∧ step l (Move i d) = l)
  ∧ (in_bounds l i → in_bounds l (targetIndex i d) →
       length (step l (Move i d)) = length l
       ∧ array_get (step l (Move i d)) i = array_get l (targetIndex i d)
       ∧ array_get (step l (Move i d)) (targetIndex i d) = array_get l i
       ∧ ∀ j, j ≠ i → j ≠ targetIndex i d →
           array_get (step l (Move i d)) j = array_get l j).
Proof.
  assert (Hout : ∀ i d, ¬ in_bounds l (targetIndex i d) →
            moveWidget l i d = None ∧ step l (Move i d) = l).
  { intros i' d' H. unfold step, rerender. simpl. by rewrite moveWidget_out. }
  split_and!.
  - apply Hout. unfold in_bounds, targetIndex. lia.
  - apply Hout. unfold in_bounds, targetIndex. lia.
  - apply Hout.
  - intros Hi Ht.
    destruct (step_move_swap l i d Hi Ht) as (l1 & x & y & l2 & -> & -> & Hl1).
    split_and!.
    + rewrite !length_app. simpl. lia.
    + destruct d; unfold targetIndex in *.
      * rewrite (array_get_middle2 l1 y x l2 i) by lia.
        by rewrite (array_get_middle l1 x (y :: l2) (i - 1)) by lia.
      * rewrite (array_get_middle l1 y (x :: l2) i) by lia.
        by rewrite (array_get_middle2 l1 x y l2 (i + 1)) by lia.
    + destruct d; unfold targetIndex in *.
      * rewrite (array_get_middle l1 y (x :: l2) (i - 1)) by lia.
        by rewrite (array_get_middle2 l1 x y l2 i) by lia.
      * rewrite (array_get_middle2 l1 y x l2 (i + 1)) by lia.
        by rewrite (array_get_middle l1 x (y :: l2) i) by lia.
    + intros j Hj1 Hj2. apply array_get_swap_other; destruct d; unfold targetIndex in *; lia.
Qed.

Lemma moveWidget_boundary_noop_and_swap_witness :
  let l := Some <$> default_ids in
  (moveWidget l 5 right = None ∧ step l (Move 5 right) = l)
  ∧ (length (step l (Move 2 left)) = length l
     ∧ array_get (step l (Move 2 left)) 2 = array_get l 1
     ∧ array_get (step l (Move 2 left)) 1 = array_get l 2
     ∧ ∀ j, j ≠ 2%Z → j ≠ 1%Z →
         array_get (step l (Move 2 left)) j = array_get l j).
Proof.
  intros l. split.
  - destruct (moveWidget_boundary_noop_and_swap l 5 right) as (_ & _ & Hout & _).
    apply Hout. unfold in_bounds. simpl. lia.
  - destruct (moveWidget_boundary_noop_and_swap l 2 left) as (_ & _ & _ & Hswap).
    apply Hswap; unfold in_bounds; simpl; lia.
Defined.

(** ** Sequences of strings *)

(** The render loop binds each move button to the index of its own slot
    (see [render_slot_known]), so the moves the interface can make have
    their index in bounds. Under such actions a sequence of strings stays
    a sequence of strings, and being free of duplicate identifiers is
    being free of duplicate slots. *)
Section strings.
Implicit Types (l : list elem) (a : action).

Lemma step_strings l a :
  Forall is_Some l → (∀ i d, a = Move i d → in_bounds l i) →
  Forall is_Some (step l a).
Proof.
  intros Hl Hmove. destruct a as [i d|id|id].
  - destruct (decide (in_bounds l (targetIndex i d))) as [Ht|Ht].
    + destruct (step_move_swap l i d (Hmove i d eq_refl) Ht)
        as (l1 & x & y & l2 & -> & -> & _).
      revert Hl. rewrite !Forall_app, !Forall_cons. tauto.
    + unfold step, rerender. simpl. by rewrite moveWidget_out.
  - unfold step, rerender. simpl.
    apply Forall_forall. intros x [_ Hx]%list_elem_of_filter.
    by apply (proj1 (Forall_forall _ _) Hl).
  - unfold step, rerender. simpl. unfold addWidget.
    destruct (includes l id); simpl; [done|].
    apply Forall_app. split; [done|]. by repeat constructor.
Qed.

Lemma strings_idents l : Forall is_Some l → l = Some <$> idents l.
Proof.
  unfold idents. induction 1 as [|x l [s ->] _ IH]; [done|].
  simpl. by f_equal.
Qed.

Lemma strings_NoDup l : Forall is_Some l → NoDup (idents l) → NoDup l.
Proof.
  intros Hl Hnd. rewrite (strings_idents l Hl).
  apply NoDup_fmap_2; [|done]. by intros ?? [=].
Qed.
End strings.

(** ** [addWidget] and [removeWidget] *)

Section add_remove.
Implicit Types (l : list elem) (id : jsstring).

Lemma step_add_fresh l id : Some id ∉ l → step l (Add id) = l ++ [Some id].
Proof.
  intros Hid. unfold step, rerender. simpl. unfold addWidget.
  destruct (includes l id) eqn:Hinc; [|done].
  by apply includes_spec in Hinc.
Qed.

Lemma step_add_present l id : Some id ∈ l → step l (Add id) = l.
Proof.
  intros Hid%includes_spec. unfold step, rerender. simpl. unfold addWidget.
  by rewrite Hid.
Qed.

Lemma step_remove l id : step l (Remove id) = filter (λ wId, wId ≠ Some id) l.
Proof. done. Qed.

Lemma step_remove_absent l id : Some id ∉ l → step l (Remove id) = l.
Proof.
  intros Hid. rewrite step_remove. induction l as [|x l IH]; [done|].
  rewrite filter_cons. destruct (decide (x ≠ Some id)) as [_|Heq].
  - f_equal. apply IH. intros ?. apply Hid. by right.
  - exfalso. apply Hid. destruct (decide (x = Some id)) as [->|]; [left|done].
Qed.

Lemma step_remove_gone l id : Some id ∉ step l (Remove id).
Proof. rewrite step_remove. intros [Hne _]%list_elem_of_filter. done. Qed.

Lemma step_remove_length l id :
  (length (step l (Remove id)) + length (filter (λ wId, wId = Some id) l)
   = length l)%nat.
Proof.
  rewrite step_remove. induction l as [|x l IH]; [done|].
  rewrite !filter_cons.
  destruct (decide (x ≠ Some id)), (decide (x = Some id)); simpl; (done || lia).
Qed.
End add_remove.

(** C7. [addWidget(id)] puts [id] at the end when the sequence does not hold
    it and leaves the sequence as it is when it does, so adding twice is
    adding once; removing twice is removing once. *)
Theorem addWidget_removeWidget_idempotent (l : list elem) (id : jsstring) :
  (Some id ∉ l → step l (Add id) = l ++ [Some id])
  ∧ (Some id ∈ l → step l (Add id) = l ∧ addWidget l id = None)
  ∧ step (step l (Add id)) (Add id) = step l (Add id)
  ∧ step (step l (Remove id)) (Remove id) = step l (Remove id).
Proof.
  split_and!.
  - apply step_add_fresh.
  - intros Hid. split; [by apply step_add_present|].
    unfold addWidget. by apply includes_spec in Hid as ->.
  - apply step_add_present.
    destruct (decide (Some id ∈ l)) as [Hin|Hout].
    + by rewrite step_add_present.
    + rewrite step_add_fresh by done. apply elem_of_app. right. by left.
  - apply step_remove_absent, step_remove_gone.
Qed.

Lemma addWidget_removeWidget_idempotent_witness :
  step (ids ["w-ai"; "w-timer"]%string) (Add (js "w-stats"))
    = ids ["w-ai"; "w-timer"; "w-stats"]%string
  ∧ step (ids ["w-ai"; "w-timer"]%string) (Add (js "w-timer"))
    = ids ["w-ai"; "w-timer"]%string.
Proof.
  split.
  - destruct (addWidget_removeWidget_idempotent
                (ids ["w-ai"; "w-timer"]%string) (js "w-stats")) as (Hfresh & _).
    apply Hfresh. apply (bool_decide_unpack _). vm_compute. exact I.
  - destruct (addWidget_removeWidget_idempotent
                (ids ["w-ai"; "w-timer"]%string) (js "w-timer")) as (_ & Hpresent & _).
    apply Hpresent. apply (bool_decide_unpack _). vm_compute. exact I.
Defined.

(** C10. [removeWidget(id)] deletes every occurrence of [id], also from a
    sequence that holds it several times: [id] does not occur in the
    result, the result is the old sequence with slots left out and the
    order of the remaining ones kept, and the slots left out are exactly
    the occurrences of [id]. *)
Theorem removeWidget_removes_every_occurrence (l : list elem) (id : jsstring) :
(Some id ∉ step l (Remove id))
  ∧ step l (Remove id) `sublist_of` l
  ∧ (length (step l (Remove id)) + length (filter (λ wId, wId = Some id) l)
     = length l)%nat
  ∧ step (ids ["a"; "b"; "a"; "c"; "a"]%string) (Remove (js "a"))
    = ids ["b"; "c"]%string.
Proof.
  split_and!.
  - apply step_remove_gone.
  - rewrite step_remove. apply sublist_filter.
  - apply step_remove_length.
  - vm_compute. done.
Qed.

(** ** The fuel of [JSON.parse] *)

Section json_fuel.
Import JSON.
Implicit Types (s r k : jsstring) (c : N) (fuel : nat).

Lemma skip_ws_length s : (length (skip_ws s) ≤ length s)%nat.
Proof.
  induction s as [|c s IH]; [done|]. simpl.
  destruct (is_ws c); simpl; lia.
Qed.

Lemma skip_ws_cons_length s c r :
  skip_ws s = c :: r → (length r < length s)%nat.
Proof. intros H. pose proof (skip_ws_length s) as Hl. rewrite H in Hl. simpl in Hl. lia. Qed.

Lemma push_Some {A} c (p : option (jsstring * A)) k (r : A) :
  push c p = Some (k, r) → ∃ k', p = Some (k', r).
Proof. destruct p as [[k' r']|]; [|done]. intros [= _ <-]. eauto. Qed.

Lemma parse_chars_length s k r :
  parse_chars s = Some (k, r) → (length r < length s)%nat.
Proof.
  remember (length s) as n eqn:Hn. revert s k r Hn.
  induction n as [n IH] using lt_wf_ind. intros s k r -> Hp.
  destruct s as [|c s]; [done|]. simpl in Hp.
  destruct (c =? 34).
  { injection Hp as _ <-. simpl. lia. }
  destruct (c =? 92).
  - destruct s as [|e r1]; [done|]. destruct (e =? 117).
    + destruct r1 as [|h1 [|h2 [|h3 [|h4 r2]]]]; try done.
      destruct (hex4 h1 h2 h3 h4); [|done].
      apply push_Some in Hp as [k' Hp].
      apply (IH (length r2)) in Hp; [simpl; lia|simpl; lia|done].
    + destruct (unescape e); [|done].
      apply push_Some in Hp as [k' Hp].
      apply (IH (length r1)) in Hp; [simpl; lia|simpl; lia|done].
  - destruct (c <? 32); [done|].
    apply push_Some in Hp as [k' Hp].
    apply (IH (length s)) in Hp; [simpl; lia|simpl; lia|done].
Qed.

Lemma expect_length lit s r :
  expect lit s = Some r → (length r ≤ length s)%nat.
Proof.
  revert s. induction lit as [|l lit IH]; intros s.
  - by intros [= ->].
  - destruct s as [|c s]; [done|]. simpl. destruct (l =? c); [|done].
    intros H%IH. lia.
Qed.

Lemma digits_length s : (length (digits s).2 ≤ length s)%nat.
Proof.
  induction s as [|c s IH]; [done|]. simpl.
  destruct (is_digit c); [|done]. destruct (digits s). simpl in *. lia.
Qed.

Lemma digits1_length s d r :
  digits1 s = Some (d, r) → (length r ≤ length s)%nat.
Proof.
  unfold digits1. pose proof (digits_length s) as Hl.
  destruct (digits s) as [[|c d'] r']; [done|]. by intros [= _ <-].
Qed.

Lemma parse_number_length s lit r :
  parse_number s = Some (lit, r) → (length r < length s)%nat.
Proof.
  unfold parse_number.
  set (sg := match s with
             | c :: r0 => if c =? 45 then ([c], r0) else ([], s)
             | [] => ([], s)
             end).
  assert (Hsg : (length sg.2 ≤ length s)%nat).
  { subst sg. destruct s as [|c s]; [done|]. destruct (c =? 45); simpl; lia. }
  destruct sg as [sg0 r0]. simpl in Hsg.
  destruct (parse_int r0) as [[i r1]|] eqn:Hint; [|done].
  assert (Hr1 : (length r1 < length r0)%nat).
  { unfold parse_int in Hint. destruct r0 as [|c r0']; [done|].
    destruct (c =? 48); [injection Hint as _ <-; simpl; lia|].
    destruct (is_digit c); [|done].
    pose proof (digits_length r0') as Hd. destruct (digits r0').
    injection Hint as _ <-. simpl in *. lia. }
  cbn [mbind option_bind].
  destruct (parse_frac r1) as [[f r2]|] eqn:Hfrac; [|done].
  assert (Hr2 : (length r2 ≤ length r1)%nat).
  { unfold parse_frac in Hfrac. destruct r1 as [|c r1']; [by injection Hfrac as _ <-|].
    destruct (c =? 46); [|by injection Hfrac as _ <-].
    apply push_Some in Hfrac as [k' Hd%digits1_length]. simpl. lia. }
  cbn [mbind option_bind].
  destruct (parse_exp r2) as [[e r3]|] eqn:Hexp; [|done].
  assert (Hr3 : (length r3 ≤ length r2)%nat).
  { unfold parse_exp in Hexp. destruct r2 as [|c r2']; [by injection Hexp as _ <-|].
    destruct ((c =? 101) || (c =? 69)); [|by injection Hexp as _ <-].
    assert (Hs : (length (parse_sign r2').2 ≤ length r2')%nat).
    { unfold parse_sign. destruct r2' as [|c' r2'']; [done|].
      destruct ((c' =? 43) || (c' =? 45)); simpl; lia. }
    destruct (parse_sign r2') as [sg1 r2s]. simpl in Hs.
    destruct (digits1 r2s) as [[d r2d]|] eqn:Hd; [|done].
    apply digits1_length in Hd. injection Hexp as _ <-. simpl. lia. }
  cbn [mbind option_bind]. intros [= _ <-]. lia.
Qed.
(** One unfolding of each parser. *)
Lemma parse_value_S fuel s :
  parse_value (S fuel) s =
    match skip_ws s with
    | [] => None
    | c :: r =>
      if c =? 34 then '(str, r1) ← parse_chars r; Some (JString str, r1)
      else if c =? 91 then
        match skip_ws r with
        | c1 :: r1 =>
          if c1 =? 93 then Some (JArray [], r1)
          else '(items, r2) ← parse_elements fuel r; Some (JArray items, r2)
        | [] => None
        end
      else if c =? 123 then
        match skip_ws r with
        | c1 :: r1 =>
          if c1 =? 125 then Some (JObject [], r1)
          else '(members, r2) ← parse_members fuel r; Some (JObject members, r2)
        | [] => None
        end
      else if c =? 116 then r1 ← expect (js "rue") r; Some (JBool true, r1)
      else if c =? 102 then r1 ← expect (js "alse") r; Some (JBool false, r1)
      else if c =? 110 then r1 ← expect (js "ull") r; Some (JNull, r1)
      else '(lit, r1) ← parse_number (c :: r); Some (JNumber lit, r1)
    end.
Proof. done. Qed.

Lemma parse_elements_S fuel s :
  parse_elements (S fuel) s =
    '(v, r) ← parse_value fuel s;
    match skip_ws r with
    | c :: r1 =>
      if c =? 44
      then '(vs, r2) ← parse_elements fuel r1; Some (v :: vs, r2)
      else if c =? 93 then Some ([v], r1) else None
    | [] => None
    end.
Proof. done. Qed.

Lemma parse_members_S fuel s :
  parse_members (S fuel) s =
    match skip_ws s with
    | c :: r =>
      if c =? 34 then
        '(k, r1) ← parse_chars r;
        match skip_ws r1 with
        | c1 :: r2 =>
          if c1 =? 58 then
            '(v, r3) ← parse_value fuel r2;
            match skip_ws r3 with
            | c3 :: r4 =>
              if c3 =? 44 then
                '(ms, r5) ← parse_members fuel r4; Some ((k, v) :: ms, r5)
              else if c3 =? 125 then Some ([(k, v)], r4)
              else None
            | [] => None
            end
          else None
        | [] => None
        end
      else None
    | [] => None
    end.
Proof. done. Qed.

(** Every parser consumes input. *)
Lemma parse_lengths fuel :
  (∀ s v r, parse_value fuel s = Some (v, r) → (length r < length s)%nat)
  ∧ (∀ s vs r, parse_elements fuel s = Some (vs, r) → (length r < length s)%nat)
  ∧ (∀ s ms r, parse_members fuel s = Some (ms, r) → (length r < length s)%nat).
Proof.
  induction fuel as [|fuel (IHv & IHe & IHm)]; [done|]. split_and!.
  - intros s v r. rewrite parse_value_S.
    pose proof (skip_ws_length s) as Hs.
    destruct (skip_ws s) as [|c r0]; [done|]. simpl in Hs.
    destruct (c =? 34).
    { destruct (parse_chars r0) as [[str r1]|] eqn:Hc; [|done].
      apply parse_chars_length in Hc. intros [= _ <-]. lia. }
    destruct (c =? 91).
    { pose proof (skip_ws_length r0) as Hr0.
      destruct (skip_ws r0) as [|c1 r1]; [done|]. simpl in Hr0.
      destruct (c1 =? 93); [intros [= _ <-]; lia|].
      destruct (parse_elements fuel r0) as [[items r2]|] eqn:He; [|done].
      apply IHe in He. intros [= _ <-]. lia. }
    destruct (c =? 123).
    { pose proof (skip_ws_length r0) as Hr0.
      destruct (skip_ws r0) as [|c1 r1]; [done|]. simpl in Hr0.
      destruct (c1 =? 125); [intros [= _ <-]; lia|].
      destruct (parse_members fuel r0) as [[ms r2]|] eqn:Hm; [|done].
      apply IHm in Hm. intros [= _ <-]. lia. }
    destruct (c =? 116).
    { destruct (expect (js "rue") r0) eqn:Hex; [|done].
      apply expect_length in Hex. intros [= _ <-]. lia. }
    destruct (c =? 102).
    { destruct (expect (js "alse") r0) eqn:Hex; [|done].
      apply expect_length in Hex. intros [= _ <-]. lia. }
    destruct (c =? 110).
    { destruct (expect (js "ull") r0) eqn:Hex; [|done].
      apply expect_length in Hex. intros [= _ <-]. lia. }
    destruct (parse_number (c :: r0)) as [[lit r1]|] eqn:Hn; [|done].
    apply parse_number_length in Hn. simpl in Hn. intros [= _ <-]. lia.
  - intros s vs r. rewrite parse_elements_S.
    destruct (parse_value fuel s) as [[v r0]|] eqn:Hv; [|done].
    apply IHv in Hv. cbn [mbind option_bind].
    pose proof (skip_ws_length r0) as Hr0.
    destruct (skip_ws r0) as [|c r1]; [done|]. simpl in Hr0.
    destruct (c =? 44).
    { destruct (parse_elements fuel r1) as [[vs' r2]|] eqn:He; [|done].
      apply IHe in He. intros [= _ <-]. lia. }
    destruct (c =? 93); [|done]. intros [= _ <-]. lia.
  - intros s ms r. rewrite parse_members_S.
    pose proof (skip_ws_length s) as Hs.
    destruct (skip_ws s) as [|c r0]; [done|]. simpl in Hs.
    destruct (c =? 34); [|done].
    destruct (parse_chars r0) as [[k r1]|] eqn:Hc; [|done].
    apply parse_chars_length in Hc. cbn [mbind option_bind].
    pose proof (skip_ws_length r1) as Hr1.
    destruct (skip_ws r1) as [|c1 r2]; [done|]. simpl in Hr1.
    destruct (c1 =? 58); [|done].
    destruct (parse_value fuel r2) as [[v r3]|] eqn:Hv; [|done].
    apply IHv in Hv. cbn [mbind option_bind].
    pose proof (skip_ws_length r3) as Hr3.
    destruct (skip_ws r3) as [|c3 r4]; [done|]. simpl in Hr3.
    destruct (c3 =? 44).
    { destruct (parse_members fuel r4) as [[ms' r5]|] eqn:Hm; [|done].
      apply IHm in Hm. intros [= _ <-]. lia. }
    destruct (c3 =? 125); [|done]. intros [= _ <-]. lia.
Qed.

(** Past twice the length of the text, one more unit of fuel changes
    nothing. *)
Lemma parse_fuel_step fuel :
  (∀ s, (2 * length s + 2 ≤ fuel)%nat →
        parse_value (S fuel) s = parse_value fuel s)
  ∧ (∀ s, (2 * length s + 3 ≤ fuel)%nat →
          parse_elements (S fuel) s = parse_elements fuel s)
  ∧ (∀ s, (2 * length s + 3 ≤ fuel)%nat →
          parse_members (S fuel) s = parse_members fuel s).
Proof.
  induction fuel as [|fuel (IHv & IHe & IHm)]; [split_and!; intros; lia|].
  split_and!.
  - intros s Hfuel. rewrite (parse_value_S (S fuel)), (parse_value_S fuel).
    pose proof (skip_ws_length s) as Hs.
    destruct (skip_ws s) as [|c r0]; [done|]. simpl in Hs.
    rewrite IHe, IHm by lia. done.
  - intros s Hfuel.
    rewrite (parse_elements_S (S fuel)), (parse_elements_S fuel).
    rewrite IHv by lia.
    destruct (parse_value fuel s) as [[v r0]|] eqn:Hv; [|done].
    apply (parse_lengths fuel) in Hv. cbn [mbind option_bind].
    pose proof (skip_ws_length r0) as Hr0.
    destruct (skip_ws r0) as [|c r1]; [done|]. simpl in Hr0.
    rewrite IHe by lia. done.
  - intros s Hfuel.
    rewrite (parse_members_S (S fuel)), (parse_members_S fuel).
    pose proof (skip_ws_length s) as Hs.
    destruct (skip_ws s) as [|c r0]; [done|]. simpl in Hs.
    destruct (c =? 34); [|done].
    destruct (parse_chars r0) as [[k r1]|] eqn:Hc; [|done].
    apply parse_chars_length in Hc. cbn [mbind option_bind].
    pose proof (skip_ws_length r1) as Hr1.
    destruct (skip_ws r1) as [|c1 r2]; [done|]. simpl in Hr1.
    destruct (c1 =? 58); [|done].
    rewrite IHv by lia.
    destruct (parse_value fuel r2) as [[v r3]|] eqn:Hv; [|done].
    apply (parse_lengths fuel) in Hv. cbn [mbind option_bind].
    pose proof (skip_ws_length r3) as Hr3.
    destruct (skip_ws r3) as [|c3 r4]; [done|]. simpl in Hr3.
    rewrite IHm by lia. done.
Qed.

(** The fuel [parse] gives is enough: no larger amount parses a text
    that [parse] rejects, or parses it differently. *)
Lemma parse_fuel_enough (text : jsstring) fuel :
  (2 * length text + 2 ≤ fuel)%nat →
  parse_value fuel text = parse_value (2 * length text + 2) text.
Proof.
  induction 1 as [|fuel Hle IH]; [done|].
  rewrite <- IH. by apply parse_fuel_step.
Qed.
End json_fuel.

(** ** [JSON.parse] after [JSON.stringify] *)

Section json_roundtrip.
Import JSON.
Implicit Types (s rest : jsstring) (c d : N).

Lemma hexval_hexdigit n : n < 16 → hexval (hexdigit n) = Some n.
Proof.
  intros Hn.
  assert (H : n = 0 ∨ n = 1 ∨ n = 2 ∨ n = 3 ∨ n = 4 ∨ n = 5 ∨ n = 6 ∨ n = 7
              ∨ n = 8 ∨ n = 9 ∨ n = 10 ∨ n = 11 ∨ n = 12 ∨ n = 13 ∨ n = 14
              ∨ n = 15) by lia.
  repeat (destruct H as [->|H]; [reflexivity|]). by subst.
Qed.

Lemma hex4_unicode_escape c :
  c < 65536 →
  hex4 (hexdigit (c / 4096)) (hexdigit ((c / 256) mod 16))
       (hexdigit ((c / 16) mod 16)) (hexdigit (c mod 16)) = Some c.
Proof.
  intros Hc. unfold hex4.
  rewrite !hexval_hexdigit
    by (zify; Z.to_euclidean_division_equations; lia).
  simpl. f_equal. zify. Z.to_euclidean_division_equations. lia.
Qed.

Lemma parse_chars_plain c r :
  c ≠ 34 → c ≠ 92 → 32 ≤ c → parse_chars (c :: r) = push c (parse_chars r).
Proof.
  intros H1 H2 H3. simpl.
  destruct (N.eqb_spec c 34); [done|]. destruct (N.eqb_spec c 92); [done|].
  destruct (N.ltb_spec c 32); [lia|done].
Qed.

Lemma parse_chars_unicode c r :
  c < 65536 → parse_chars (unicode_escape c ++ r) = push c (parse_chars r).
Proof.
  intros Hc. unfold unicode_escape.
  change (parse_chars (?a ++ r)) with
    (match hex4 (hexdigit (c / 4096)) (hexdigit ((c / 256) mod 16))
             (hexdigit ((c / 16) mod 16)) (hexdigit (c mod 16)) with
     | Some u => push u (parse_chars r)
     | None => None
     end).
  by rewrite hex4_unicode_escape.
Qed.

Lemma is_lead_spec c : is_lead c = true ↔ 0xD800 ≤ c ≤ 0xDBFF.
Proof. unfold is_lead. rewrite andb_true_iff, !N.leb_le. done. Qed.

Lemma is_trail_spec c : is_trail c = true ↔ 0xDC00 ≤ c ≤ 0xDFFF.
Proof. unfold is_trail. rewrite andb_true_iff, !N.leb_le. done. Qed.

(** Reading back one unit written by [quote_unit]. *)
Lemma parse_chars_quote_unit c r :
  parse_chars (quote_unit c ++ r) = push c (parse_chars r).
Proof.
  unfold quote_unit.
  destruct (N.eqb_spec c 8) as [->|?]; [reflexivity|].
  destruct (N.eqb_spec c 9) as [->|?]; [reflexivity|].
  destruct (N.eqb_spec c 10) as [->|?]; [reflexivity|].
  destruct (N.eqb_spec c 12) as [->|?]; [reflexivity|].
  destruct (N.eqb_spec c 13) as [->|?]; [reflexivity|].
  destruct (N.eqb_spec c 34) as [->|?]; [reflexivity|].
  destruct (N.eqb_spec c 92) as [->|?]; [reflexivity|].
  destruct ((c <? 32) || is_lead c || is_trail c) eqn:Hesc.
  - apply parse_chars_unicode.
    apply orb_true_iff in Hesc as [[Hlt|Hl]%orb_true_iff|Ht].
    + apply N.ltb_lt in Hlt. lia.
    + apply is_lead_spec in Hl. lia.
    + apply is_trail_spec in Ht. lia.
  - apply orb_false_iff in Hesc as [[Hlt _]%orb_false_iff _].
    apply N.ltb_ge in Hlt. by apply parse_chars_plain.
Qed.

Lemma parse_chars_quote_body s rest :
  parse_chars (quote_body s ++ 34 :: rest) = Some (s, rest).
Proof.
  remember (length s) as n eqn:Hn. revert s Hn.
  induction n as [n IH] using lt_wf_ind. intros s Hn.
  destruct s as [|c [|d r]].
  - done.
  - simpl. by rewrite parse_chars_quote_unit.
  - change (quote_body (c :: d :: r)) with
      (if is_lead c && is_trail d then c :: d :: quote_body r
       else quote_unit c ++ quote_body (d :: r)).
    destruct (is_lead c && is_trail d) eqn:Hpair.
    + apply andb_true_iff in Hpair as [Hc%is_lead_spec Hd%is_trail_spec].
      rewrite <- !app_comm_cons.
      rewrite (parse_chars_plain c), (parse_chars_plain d) by lia.
      rewrite (IH (length r)); [done| |done]. subst n. simpl. lia.
    + rewrite <- (assoc_L (++)), parse_chars_quote_unit.
      rewrite (IH (length (d :: r))); [done| |done]. subst n. simpl. lia.
Qed.

Lemma parse_value_quote fuel s rest :
  (0 < fuel)%nat → parse_value fuel (quote s ++ rest) = Some (JString s, rest).
Proof.
  intros Hfuel. destruct fuel as [|fuel]; [lia|].
  unfold quote. rewrite <- app_comm_cons, <- (assoc_L (++)). simpl.
  by rewrite parse_chars_quote_body.
Qed.

Lemma join_elems_cons (e : elem) (a : list elem) :
  a ≠ [] → join_elems (e :: a) = stringify_elem e ++ 44 :: join_elems a.
Proof. by destruct a. Qed.

Lemma parse_value_array fuel s :
  parse_value (S fuel) (91 :: s) =
    match skip_ws s with
    | c1 :: r1 =>
      if c1 =? 93 then Some (JArray [], r1)
      else '(items, r2) ← parse_elements fuel s; Some (JArray items, r2)
    | [] => None
    end.
Proof. done. Qed.

Lemma parse_elements_join (l : list jsstring) fuel rest :
  l ≠ [] → (length l < fuel)%nat →
  parse_elements fuel (join_elems (Some <$> l) ++ 93 :: rest)
  = Some (JString <$> l, rest).
Proof.
  revert fuel. induction l as [|x l IH]; intros fuel Hne Hfuel; [done|].
  destruct fuel as [|fuel]; [lia|]. simpl in Hfuel.
  rewrite parse_elements_S. destruct l as [|y l].
  - change (join_elems (Some <$> [x])) with (quote x).
    by rewrite parse_value_quote by lia.
  - rewrite fmap_cons, join_elems_cons by done.
    rewrite <- (assoc_L (++)), <- app_comm_cons.
    change (stringify_elem (Some x)) with (quote x).
    rewrite parse_value_quote by lia. cbn [mbind option_bind].
    change (skip_ws (44 :: ?t)) with (44 :: t). cbn [N.eqb Pos.eqb].
    rewrite IH; [done|done|]. simpl in *. lia.
Qed.

Lemma length_join_elems (l : list jsstring) :
  (length l ≤ length (join_elems (Some <$> l)))%nat.
Proof.
  induction l as [|x [|y l] IH]; [done|simpl; lia|].
  rewrite fmap_cons, join_elems_cons by done.
  rewrite length_app. simpl in *. lia.
Qed.

Lemma parse_value_stringify (l : list jsstring) fuel rest :
  (S (length l) < fuel)%nat →
  parse_value fuel (stringify (Some <$> l) ++ rest)
  = Some (JArray (JString <$> l), rest).
Proof.
  intros Hfuel. destruct fuel as [|fuel]; [lia|].
  unfold stringify. rewrite <- app_comm_cons, <- (assoc_L (++)).
  change ([93] ++ rest) with (93 :: rest).
  destruct l as [|x l]; [done|].
  rewrite parse_value_array.
  rewrite (parse_elements_join (x :: l)); [|done|simpl in *; lia].
  by destruct l.
Qed.

(** Reading back a serialised array of strings gives the same strings. *)
Lemma parse_stringify (l : list jsstring) :
  parse (stringify (Some <$> l)) = Returned (JArray (JString <$> l)).
Proof.
  unfold parse.
  rewrite <- (app_nil_r (stringify (Some <$> l))) at 2.
  rewrite parse_value_stringify; [done|].
  pose proof (length_join_elems l). unfold stringify. simpl.
  rewrite length_app. simpl. lia.
Qed.
End json_roundtrip.

(** ** The start-up read *)

Section load.
Import JSON.

Lemma truthy_stringify (a : list elem) : truthy (Some (stringify a)) = true.
Proof. done. Qed.

Lemma load_falsy (st : option jsstring) :
  truthy st = false → load st = Returned (JArray (JString <$> default_ids)).
Proof. unfold load. by intros ->. Qed.

Lemma load_truthy (text : jsstring) :
  text ≠ [] → load (Some text) = parse text.
Proof. by destruct text. Qed.

Lemma load_stringify (l : list jsstring) :
  load (Some (stringify (Some <$> l))) = Returned (JArray (JString <$> l)).
Proof. rewrite load_truthy by done. apply parse_stringify. Qed.

Lemma as_layout_strings (l : list jsstring) :
  as_layout (JArray (JString <$> l)) = Some (Some <$> l).
Proof.
  simpl. induction l as [|x l IH]; [done|].
  rewrite !fmap_cons. simpl. by rewrite IH.
Qed.

Lemma fmap_JString_inj (l k : list jsstring) :
  JString <$> l = JString <$> k → l = k.
Proof.
  revert k. induction l as [|x l IH]; intros [|y k]; try done.
  rewrite !fmap_cons. intros [= -> Hlk]. f_equal. by apply IH.
Qed.

Lemma as_layout_inv (v : value) (a : list elem) :
  as_layout v = Some a →
  ∃ l : list jsstring, v = JArray (JString <$> l) ∧ a = Some <$> l.
Proof.
  destruct v as [| | | |items|]; try done. simpl.
  revert a. induction items as [|v items IH]; intros a.
  - intros [= <-]. by exists [].
  - simpl. destruct v as [| | |x| |]; try done. simpl.
    destruct (mapM as_string items) as [a'|] eqn:Hmap; [|done].
    simpl. intros [= <-].
    destruct (IH a' eq_refl) as (l & [= ->] & ->). by exists (x :: l).
Qed.
End load.

(** C1, as the code has it. An absent or empty stored value gives the default
    sequence; the JSON text of an array of strings gives these strings; and
    for every other non-empty stored value the initializer is [JSON.parse]
    itself, so what [JSON.parse] throws is thrown and what it returns is
    returned, whatever its shape. *)
Theorem load_default_or_parse (st : option jsstring) :
  (truthy st = false →
     load st = Returned (JSON.JArray (JSON.JString <$> default_ids)))
  ∧ (∀ l : list jsstring, st = Some (JSON.stringify (Some <$> l)) →
       load st = Returned (JSON.JArray (JSON.JString <$> l)))
  ∧ (∀ text, st = Some text → text ≠ [] → load st = JSON.parse text).
Proof.
  split_and!.
  - apply load_falsy.
  - intros l ->. apply load_stringify.
  - intros text -> Hne. by apply load_truthy.
Qed.

Lemma load_default_or_parse_witness :
  load None = Returned (JSON.JArray (JSON.JString <$> default_ids))
  ∧ load (Some (JSON.stringify (ids ["w-timer"; "w-ai"]%string)))
    = Returned (JSON.JArray [JSON.JString (js "w-timer"); JSON.JString (js "w-ai")])
  ∧ load (Some (js "[1]")) = JSON.parse (js "[1]").
Proof.
  split_and!.
  - destruct (load_default_or_parse None) as (Hdef & _). by apply Hdef.
  - destruct (load_default_or_parse
                (Some (JSON.stringify (ids ["w-timer"; "w-ai"]%string))))
      as (_ & Hstr & _).
    by apply (Hstr [js "w-timer"; js "w-ai"]).
  - destruct (load_default_or_parse (Some (js "[1]"))) as (_ & _ & Hparse).
    by apply Hparse.
Defined.

(** C1 fails as stated: a stored value that is not JSON makes the
    initializer throw, and stored JSON of another shape is returned as it
    is instead of the default sequence. *)
Lemma load_malformed_not_default :
  load (Some (js "w-ai,w-stats")) = Thrown SyntaxError
  ∧ load (Some (js "[w-ai]")) = Thrown SyntaxError
  ∧ load (Some (js "{}")) = Returned (JSON.JObject [])
  ∧ load (Some (js "[1]")) = Returned (JSON.JArray [JSON.JNumber (js "1")]).
Proof. vm_compute. by split_and!. Qed.

(** ** The persisting effect *)

Section persist.
Implicit Types (w : world) (a : action) (e : event).

Lemma dispatch_layout_set w a newWidgets :
  handle (activeWidgets w) a = Some newWidgets →
  activeWidgets (dispatch w (Layout a)) = newWidgets
  ∧ storage (dispatch w (Layout a)) = Some (JSON.stringify newWidgets)
  ∧ writes (dispatch w (Layout a)) = JSON.stringify newWidgets :: writes w.
Proof. intros Hh. simpl. rewrite Hh. by destruct a. Qed.

Lemma dispatch_layout_unset w a :
  handle (activeWidgets w) a = None →
  activeWidgets (dispatch w (Layout a)) = activeWidgets w
  ∧ storage (dispatch w (Layout a)) = storage w
  ∧ writes (dispatch w (Layout a)) = writes w.
Proof. intros Hh. simpl. rewrite Hh. by destruct a. Qed.

Lemma dispatch_activeWidgets w a :
  activeWidgets (dispatch w (Layout a)) = step (activeWidgets w) a.
Proof.
  unfold step, rerender. destruct (handle (activeWidgets w) a) eqn:Hh.
  - by apply dispatch_layout_set.
  - by apply dispatch_layout_unset.
Qed.

Lemma dispatch_persisted w e : persisted w → persisted (dispatch w e).
Proof.
  unfold persisted. intros Hw. destruct e as [a| | |]; try done.
  destruct (handle (activeWidgets w) a) as [l'|] eqn:Hh.
  - destruct (dispatch_layout_set w a l' Hh) as (-> & -> & _). done.
  - destruct (dispatch_layout_unset w a Hh) as (-> & -> & _). done.
Qed.

Lemma session_persisted w es : persisted w → persisted (session w es).
Proof.
  revert w. induction es as [|e es IH]; intros w Hw; [done|].
  simpl. by apply IH, dispatch_persisted.
Qed.

Lemma mount_persisted st w : mount st = Returned (Some w) → persisted w.
Proof.
  unfold mount. destruct (load st) as [v|]; [|done].
  destruct (as_layout v) as [a|]; [|done]. simpl. by intros [= <-].
Qed.

Lemma mount_strings st w :
  mount st = Returned (Some w) →
  ∃ l : list jsstring,
    load st = Returned (JSON.JArray (JSON.JString <$> l))
    ∧ activeWidgets w = Some <$> l.
Proof.
  unfold mount. destruct (load st) as [v|]; [|done].
  destruct (as_layout v) as [a|] eqn:Ha; [|done]. simpl. intros [= <-].
  destruct (as_layout_inv v a Ha) as (l & -> & ->). by exists l.
Qed.

Lemma mount_stringify (l : list jsstring) :
  ∃ w, mount (Some (JSON.stringify (Some <$> l))) = Returned (Some w)
       ∧ activeWidgets w = Some <$> l.
Proof.
  unfold mount. rewrite load_stringify, as_layout_strings. simpl. eauto.
Qed.
End persist.

(** C8. Persisting a sequence of strings and loading it back gives that
    same sequence: for what the start-up read returned, for what a session
    ended with, and for any sequence whatever. Mounting on what a mounted
    session has persisted shows the same sequence again; mounting on
    cleared storage shows the default sequence of five; and every handler
    call that sets [activeWidgets] is followed by one [setItem] of the
    serialised new sequence, so that after any session storage holds the
    serialised current sequence. *)
Theorem persist_load_roundtrip (st : option jsstring) (w : world)
    (es : list event) (a : action) (l l' : list jsstring) :
  mount st = Returned (Some w) →
  load (storage (persist (unmounted st (Some <$> l))))
  = Returned (JSON.JArray (JSON.JString <$> l))
  ∧ (load st = Returned (JSON.JArray (JSON.JString <$> l)) →
       activeWidgets w = Some <$> l
       ∧ load (storage w) = Returned (JSON.JArray (JSON.JString <$> l)))
  ∧ (activeWidgets (session w es) = Some <$> l' →
       load (storage (session w es))
       = Returned (JSON.JArray (JSON.JString <$> l')))
  ∧ (∃ w', mount (storage w) = Returned (Some w')
           ∧ activeWidgets w' = activeWidgets w)
  ∧ (st = None → activeWidgets w = Some <$> default_ids ∧ length default_ids = 5%nat)
  ∧ storage (session w es) = Some (JSON.stringify (activeWidgets (session w es)))
  ∧ (∀ newWidgets, handle (activeWidgets (session w es)) a = Some newWidgets →
       activeWidgets (dispatch (session w es) (Layout a)) = newWidgets
       ∧ storage (dispatch (session w es) (Layout a))
         = Some (JSON.stringify newWidgets)
       ∧ writes (dispatch (session w es) (Layout a))
         = JSON.stringify newWidgets :: writes (session w es)).
Proof.
  intros Hmount. split_and!.
  - apply load_stringify.
  - intros Hload. unfold mount in Hmount.
    rewrite Hload, as_layout_strings in Hmount. simpl in Hmount.
    injection Hmount as <-. split; [done|]. apply load_stringify.
  - intros Hl'.
    pose proof (session_persisted w es (mount_persisted st w Hmount)) as Hp.
    unfold persisted in Hp. rewrite Hp, Hl'. apply load_stringify.
  - destruct (mount_strings st w Hmount) as (k & _ & Hk).
    rewrite (mount_persisted st w Hmount), Hk.
    destruct (mount_stringify k) as (w' & Hw' & Hk'). exists w'.
    by rewrite Hk'.
  - intros ->. split; [|done].
    destruct (mount_strings None w Hmount) as (k & Hload & ->).
    rewrite load_falsy in Hload by done.
    remember default_ids as d. injection Hload as Hk.
    f_equal. symmetry. by apply fmap_JString_inj.
  - apply session_persisted. by apply (mount_persisted st).
  - apply dispatch_layout_set.
Qed.

Lemma persist_load_roundtrip_witness :
  let st := Some (JSON.stringify (ids ["w-timer"; "w-ai"; "w-saved"]%string)) in
  let w := persist (unmounted st (ids ["w-timer"; "w-ai"; "w-saved"]%string)) in
  let es := [ToggleEdit; Layout (Move 0 right)] in
  mount st = Returned (Some w)
  ∧ load (storage (persist (unmounted st (ids ["w-stats"]%string))))
    = Returned (JSON.JArray [JSON.JString (js "w-stats")])
  ∧ load (storage w)
    = Returned (JSON.JArray [JSON.JString (js "w-timer");
                             JSON.JString (js "w-ai");
                             JSON.JString (js "w-saved")])
  ∧ load (storage (session w es))
    = Returned (JSON.JArray [JSON.JString (js "w-ai");
                             JSON.JString (js "w-timer");
                             JSON.JString (js "w-saved")])
  ∧ (∃ w', mount (storage w) = Returned (Some w')
           ∧ activeWidgets w' = activeWidgets w)
  ∧ storage (session w es) = Some (JSON.stringify (activeWidgets (session w es)))
  ∧ writes (dispatch (session w es) (Layout (Remove (js "w-timer"))))
    = JSON.stringify (ids ["w-ai"; "w-saved"]%string) :: writes (session w es).
Proof.
  intros st w es.
  assert (Hmount : mount st = Returned (Some w)) by (vm_compute; reflexivity).
  destruct (persist_load_roundtrip st w es (Remove (js "w-timer"))
              [js "w-timer"; js "w-ai"; js "w-saved"]
              [js "w-ai"; js "w-timer"; js "w-saved"] Hmount)
    as (_ & Hloaded & Hended & Hround & _ & Hstored & Hwrite).
  destruct (persist_load_roundtrip st w es (Remove (js "w-timer"))
              [js "w-stats"] [] Hmount) as (Hany & _).
  split_and!; [exact Hmount|exact Hany| |by apply Hended|exact Hround|exact Hstored|].
  - apply Hloaded. vm_compute. reflexivity.
  - by apply Hwrite.
Defined.

(** ** The render loop *)

Section render.
Implicit Types (w : world) (x : elem).

Lemma render_grid_lookup w (i : nat) x :
  activeWidgets w !! i = Some x →
  render_grid w !! i = Some (render_slot (editMode w) i x).
Proof.
  intros Hx. unfold render_grid. by rewrite list_lookup_imap, Hx.
Qed.

Lemma render_slot_unknown edit (i : nat) x :
  find_def x = None → render_slot edit i x = None.
Proof. unfold render_slot. intros Hfind. destruct x; [by rewrite Hfind|done]. Qed.

Lemma render_slot_known edit (i : nat) x c :
  render_slot edit i x = Some c →
  x = Some (key c) ∧ find_def x = Some (def c)
  ∧ onRemove c = Remove (key c)
  ∧ ∀ dir, onMove c dir = Move (Z.of_nat i) dir.
Proof.
  unfold render_slot. destruct x as [wid|]; [|done].
  destruct (find_def (Some wid)) as [d|]; [|done].
  by intros [= <-].
Qed.
End render.

(** C9. A slot whose identifier has no catalog entry renders as [null]:
    the render pass completes, shows one node per slot, and leaves the
    state as it was, the identifier still in its slot. *)
Theorem render_skips_unresolved (w : world) (i : nat) (x : elem) :
  activeWidgets w !! i = Some x → find_def x = None →
  (render w).1 !! i = Some None
  ∧ length (render w).1 = length (activeWidgets w)
  ∧ (render w).2 = w
  ∧ activeWidgets (render w).2 !! i = Some x.
Proof.
  intros Hx Hfind. unfold render. simpl. split_and!; [|by apply length_imap|done|done].
  rewrite (render_grid_lookup w i x Hx). f_equal.
  by apply render_slot_unknown.
Qed.

Lemma render_skips_unresolved_witness :
  let w := unmounted None (ids ["w-ai"; "w-weather"; "w-timer"]%string) in
  (render w).1 !! 1%nat = Some None
  ∧ length (render w).1 = 3%nat
  ∧ (render w).2 = w
  ∧ activeWidgets (render w).2 !! 1%nat = Some (Some (js "w-weather")).
Proof.
  intros w. by apply (render_skips_unresolved w 1 (Some (js "w-weather"))).
Defined.

(** ** The briefing widget *)

Section briefing.
Import Briefing.
Implicit Types (key : option jsstring) (s : state) (evs : list event).

Lemma history_trigger_unconfigured key s :
  truthy key = false →
  history key s [Trigger]
  = [{| briefing := Some msg_not_configured; loading := loading s;
        in_flight := in_flight s; started := started s |}].
Proof. intros Hkey. simpl. unfold generateBriefing. by rewrite Hkey. Qed.

Lemma history_trigger_configured key s :
  truthy key = true →
  history key s [Trigger]
  = [{| briefing := briefing s; loading := true;
        in_flight := in_flight s; started := started s |};
     {| briefing := briefing s; loading := true;
        in_flight := S (in_flight s); started := S (started s) |}].
Proof. intros Hkey. simpl. unfold generateBriefing. by rewrite Hkey. Qed.

(** Without a key nothing ever leaves the call-free condition. *)
Lemma history_unconfigured key s evs :
  truthy key = false → quiet s →
  Forall (λ s', quiet s' ∧ briefing s' = Some msg_not_configured)
    (history key s evs).
Proof.
  intros Hkey. revert s.
  induction evs as [|e evs IH]; intros s (Hl & Hf & Hs); [constructor|].
  destruct e as [|r].
  - simpl. unfold generateBriefing. rewrite Hkey. simpl.
    constructor; [done|]. by apply IH.
  - simpl. unfold settle_one. rewrite Hf. simpl. by apply IH.
Qed.
End briefing.

(** C4. With no API key (absent or empty), mounting the widget, and any
    later refresh, sets the not-configured message and nothing else: no
    state passed through is loading, no call is started, and the message
    differs from the one set when a call fails. *)
Theorem not_configured_short_circuit (API_KEY : option jsstring)
    (evs : list Briefing.event) :
  truthy API_KEY = false →
  Briefing.history API_KEY Briefing.initial [Briefing.Trigger]
  = [{| Briefing.briefing := Some Briefing.msg_not_configured;
        Briefing.loading := false;
        Briefing.in_flight := 0; Briefing.started := 0 |}]
  ∧ Forall (λ s, Briefing.loading s = false ∧ Briefing.in_flight s = 0%nat
                 ∧ Briefing.started s = 0%nat
                 ∧ Briefing.briefing s = Some Briefing.msg_not_configured)
      (Briefing.history API_KEY Briefing.initial (Briefing.Trigger :: evs))
  ∧ Briefing.msg_not_configured ≠ Briefing.msg_failed.
Proof.
  intros Hkey. split_and!.
  - by apply history_trigger_unconfigured.
  - eapply Forall_impl.
    + by apply history_unconfigured.
    + intros s ((? & ? & ?) & ?). done.
  - done.
Qed.

Lemma not_configured_short_circuit_witness :
  Briefing.history None Briefing.initial [Briefing.Trigger]
  = [{| Briefing.briefing := Some Briefing.msg_not_configured;
        Briefing.loading := false;
        Briefing.in_flight := 0; Briefing.started := 0 |}]
  ∧ Briefing.msg_not_configured ≠ Briefing.msg_failed.
Proof.
  destruct (not_configured_short_circuit None []) as (Hmount & _ & Hmsg);
    [reflexivity|].
  by split.
Defined.

(** C3, as the code has it. With an API key, a call of [generateBriefing]
    made while the widget is loading starts one more [generateContent]
    call: the briefing and the loading flag stay as they are, and the
    number of calls in flight grows by one. *)
Theorem trigger_while_loading_starts_call (API_KEY : option jsstring)
    (s : Briefing.state) :
  truthy API_KEY = true → Briefing.loading s = true →
  let s' := Briefing.final API_KEY s [Briefing.Trigger] in
  Briefing.briefing s' = Briefing.briefing s
  ∧ Briefing.loading s' = Briefing.loading s
  ∧ Briefing.in_flight s' = S (Briefing.in_flight s)
  ∧ Briefing.started s' = S (Briefing.started s).
Proof.
  intros Hkey Hloading. unfold Briefing.final.
  rewrite history_trigger_configured by done. simpl. by rewrite Hloading.
Qed.

Lemma trigger_while_loading_starts_call_witness :
  let s := Briefing.final (Some (js "k")) Briefing.initial [Briefing.Trigger] in
  let s' := Briefing.final (Some (js "k")) s [Briefing.Trigger] in
  Briefing.loading s = true
  ∧ Briefing.briefing s' = Briefing.briefing s
  ∧ Briefing.loading s' = Briefing.loading s
  ∧ Briefing.in_flight s' = S (Briefing.in_flight s)
  ∧ Briefing.started s' = S (Briefing.started s).
Proof.
  intros s s'. split; [reflexivity|].
  by apply (trigger_while_loading_starts_call (Some (js "k")) s).
Defined.

(** C3 fails as stated: a refresh while loading is not ignored. After the
    mount trigger the widget is loading with one call in flight; the
    refresh that follows starts a second call, so two are in flight. *)
Lemma refresh_while_loading_not_ignored :
  let s1 := Briefing.final (Some (js "k")) Briefing.initial [Briefing.Trigger] in
  let s2 := Briefing.final (Some (js "k")) s1 [Briefing.Trigger] in
  Briefing.loading s1 = true
  ∧ Briefing.in_flight s1 = 1%nat ∧ Briefing.started s1 = 1%nat
  ∧ Briefing.in_flight s2 = 2%nat ∧ Briefing.started s2 = 2%nat.
Proof. vm_compute. by split_and!. Qed.

(* ================================================================== *)
(** * Further properties of the source *)

(** ** How the layout handlers compose *)

Section compose.
Implicit Types (l : list elem) (id : jsstring) (i : Z) (d : direction).

Lemma step_move_out l i d :
  ¬ in_bounds l (targetIndex i d) → step l (Move i d) = l.
Proof. intros Hout. unfold step, rerender. simpl. by rewrite moveWidget_out. Qed.

Lemma step_swap_right l1 x y l2 i :
  i = Z.of_nat (length l1) →
  step (l1 ++ x :: y :: l2) (Move i right) = l1 ++ y :: x :: l2.
Proof.
  intros Hi. unfold step, rerender. simpl. by rewrite (moveWidget_right l1 x y l2 i Hi).
Qed.

Lemma step_swap_left l1 x y l2 i :
  i = (Z.of_nat (length l1) + 1)%Z →
  step (l1 ++ x :: y :: l2) (Move i left) = l1 ++ y :: x :: l2.
Proof.
  intros Hi. unfold step, rerender. simpl. by rewrite (moveWidget_left l1 x y l2 i Hi).
Qed.

Lemma step_move_Permutation l i d : in_bounds l i → step l (Move i d) ≡ₚ l.
Proof.
  intros Hi. destruct (decide (in_bounds l (targetIndex i d))) as [Ht|Ht].
  - destruct (step_move_swap l i d Hi Ht) as (l1 & x & y & l2 & -> & -> & _).
    apply Permutation_app_head, Permutation_swap.
  - by rewrite step_move_out.
Qed.

Lemma filter_ne_snoc l id :
  filter (λ wId : elem, wId ≠ Some id) (l ++ [Some id])
  = filter (λ wId : elem, wId ≠ Some id) l.
Proof.
  rewrite filter_app, filter_cons.
  destruct (decide (Some id ≠ Some id)); [done|]. by rewrite filter_nil, app_nil_r.
Qed.
End compose.

(** X1. Pressing the same arrow of the same slot twice, or pressing an
    arrow and then the opposite arrow on the slot the widget has moved to,
    gives back the sequence, whenever the slot and its neighbour exist. *)
Theorem move_and_back (l : list elem) (i : Z) (d : direction) :
  in_bounds l i → in_bounds l (targetIndex i d) →
  step (step l (Move i d)) (Move i d) = l
  ∧ step (step l (Move i d)) (Move (targetIndex i d) (opposite d)) = l
  ∧ step l (Move (targetIndex i d) (opposite d)) = step l (Move i d).
Proof.
  intros Hi Ht.
  destruct (step_move_swap l i d Hi Ht) as (l1 & x & y & l2 & -> & -> & Hl1).
  destruct d; unfold targetIndex in *; simpl opposite.
  - split_and!.
    + by apply step_swap_left; lia.
    + by apply step_swap_right; lia.
    + by apply step_swap_right; lia.
  - split_and!.
    + by apply step_swap_right; lia.
    + by apply step_swap_left; lia.
    + by apply step_swap_left; lia.
Qed.

Lemma move_and_back_witness :
  let l := Some <$> default_ids in
  step (step l (Move 3 left)) (Move 3 left) = l
  ∧ step (step l (Move 3 left)) (Move 2 right) = l
  ∧ step l (Move 2 right) = step l (Move 3 left).
Proof.
  intros l. apply (move_and_back l 3 left); unfold in_bounds; simpl; lia.
Defined.

(** X2. A move from an existing slot only rearranges: the new sequence is
    a permutation of the old one, of the same length, whatever the
    direction (at the ends it is the old sequence). *)
Theorem move_rearranges (l : list elem) (i : Z) (d : direction) :
  in_bounds l i →
  step l (Move i d) ≡ₚ l ∧ length (step l (Move i d)) = length l.
Proof.
  intros Hi. pose proof (step_move_Permutation l i d Hi) as Hp.
  split; [done|]. by rewrite Hp.
Qed.

Lemma move_rearranges_witness :
  let l := Some <$> default_ids in
  step l (Move 4 left) ≡ₚ l ∧ length (step l (Move 4 left)) = length l.
Proof.
  intros l. apply (move_rearranges l 4 left). unfold in_bounds. simpl. lia.
Defined.

(** X3. Removing a widget and adding it again moves it to the end, the
    others keeping their order; adding a widget that was not there and
    removing it again gives back the sequence. *)
Theorem remove_then_add (l : list elem) (id : jsstring) :
  step (step l (Remove id)) (Add id)
  = filter (λ wId, wId ≠ Some id) l ++ [Some id]
  ∧ (Some id ∉ l → step (step l (Add id)) (Remove id) = l).
Proof.
  split.
  - rewrite step_add_fresh by apply step_remove_gone. by rewrite step_remove.
  - intros Hid. rewrite step_add_fresh by done.
    rewrite step_remove, filter_ne_snoc, <- step_remove.
    by apply step_remove_absent.
Qed.

Lemma remove_then_add_witness :
  step (step (ids ["w-ai"; "w-timer"]%string) (Add (js "w-stats")))
    (Remove (js "w-stats"))
  = ids ["w-ai"; "w-timer"]%string.
Proof.
  destruct (remove_then_add (ids ["w-ai"; "w-timer"]%string) (js "w-stats"))
    as (_ & Hback).
  apply Hback. apply (bool_decide_unpack _). vm_compute. exact I.
Defined.

(** ** The catalog and the render loop *)

Section catalog.
Implicit Types (w : world) (x : elem) (s : jsstring) (d : WidgetDef).

Lemma find_def_Some x d :
  find_def x = Some d → x = Some (Widget.id d) ∧ d ∈ AVAILABLE_WIDGETS.
Proof.
  unfold find_def. intros [Hin Hd]%List.find_some.
  apply bool_decide_eq_true in Hd. by rewrite list_elem_of_In.
Qed.

Lemma find_def_None s : find_def (Some s) = None → s ∉ catalog_ids.
Proof.
  unfold find_def, catalog_ids. intros Hnone (d & -> & Hd)%list_elem_of_fmap.
  apply list_elem_of_In in Hd.
  pose proof (List.find_none _ _ Hnone d Hd) as Hf. simpl in Hf.
  by apply bool_decide_eq_false in Hf.
Qed.

Lemma find_def_catalog s :
  s ∈ catalog_ids ↔ ∃ d, find_def (Some s) = Some d.
Proof.
  split.
  - intros Hs. destruct (find_def (Some s)) as [d|] eqn:Hf; [by exists d|].
    by apply find_def_None in Hf.
  - intros (d & [[= ->] Hd]%find_def_Some). by apply list_elem_of_fmap_2.
Qed.

Lemma catalog_ids_NoDup : NoDup catalog_ids.
Proof. apply (bool_decide_unpack _). vm_compute. exact I. Qed.

Lemma catalog_id_inj d d' :
  d ∈ AVAILABLE_WIDGETS → d' ∈ AVAILABLE_WIDGETS →
  Widget.id d = Widget.id d' → d = d'.
Proof.
  pose proof catalog_ids_NoDup as Hnd. unfold catalog_ids in Hnd.
  revert Hnd. generalize AVAILABLE_WIDGETS. intros l.
  induction l as [|a l IH]; [by intros _ ?%elem_of_nil|].
  rewrite fmap_cons, NoDup_cons. intros [Ha Hl].
  intros [->|Hd]%elem_of_cons [->|Hd']%elem_of_cons Heq; [done| | |by apply IH].
  - exfalso. apply Ha. rewrite Heq. by apply list_elem_of_fmap_2.
  - exfalso. apply Ha. rewrite <- Heq. by apply list_elem_of_fmap_2.
Qed.

Lemma catalog_content d :
  d ∈ AVAILABLE_WIDGETS → is_Some (renderWidgetContent (Widget.type d)).
Proof.
  unfold AVAILABLE_WIDGETS.
  rewrite !elem_of_cons, elem_of_nil.
  intros [->|[->|[->|[->|[->|[]]]]]]; by eexists.
Qed.

Lemma render_slot_key edit (k : nat) s :
  key <$> option_list (render_slot edit k (Some s))
  = filter (λ s', s' ∈ catalog_ids) [s].
Proof.
  unfold render_slot. rewrite filter_cons, filter_nil.
  destruct (find_def (Some s)) as [d|] eqn:Hf.
  - destruct (decide (s ∈ catalog_ids)) as [|Hout]; [done|].
    exfalso. apply Hout, find_def_catalog. eauto.
  - destruct (decide (s ∈ catalog_ids)) as [Hin|]; [|done].
    by apply find_def_None in Hf.
Qed.

Lemma render_keys edit (l : list elem) (k : nat → nat) :
  key <$> omap id (imap (λ i, render_slot edit (k i)) l)
  = filter (λ s, s ∈ catalog_ids) (idents l).
Proof.
  unfold idents. revert k. induction l as [|x l IH]; intros k; [done|].
  rewrite imap_cons.
  change ((λ i, render_slot edit (k i)) ∘ S) with (λ i, render_slot edit (k (S i))).
  pose proof (IH (λ i, k (S i))) as IH'. simpl in IH'.
  destruct x as [s|].
  - change (omap id (Some s :: l)) with ([s] ++ omap id l).
    rewrite filter_app, <- IH'.
    rewrite <- (render_slot_key edit (k 0%nat) s).
    by destruct (render_slot edit (k 0%nat) (Some s)).
  - exact IH'.
Qed.
End catalog.

(** X4. The grid shows one container for each slot whose identifier is in
    the catalog, in the order of the sequence and keyed by that identifier,
    and nothing for any other slot. *)
Theorem render_shows_catalog_widgets (w : world) :
  key <$> omap id (render_grid w)
  = filter (λ s, s ∈ catalog_ids) (idents (activeWidgets w)).
Proof. unfold render_grid. apply (render_keys (editMode w) (activeWidgets w) (λ i, i)). Qed.

Lemma render_grid_Some (w : world) (i : nat) (c : container) :
  render_grid w !! i = Some (Some c) →
  activeWidgets w !! i = Some (Some (key c))
  ∧ def c ∈ AVAILABLE_WIDGETS ∧ Widget.id (def c) = key c
  ∧ is_Some (children c)
  ∧ c_editMode c = editMode w
  ∧ onRemove c = Remove (key c)
  ∧ (∀ dir, onMove c dir = Move (Z.of_nat i) dir)
  ∧ in_bounds (activeWidgets w) (Z.of_nat i).
Proof.
  unfold render_grid. rewrite list_lookup_imap.
  destruct (activeWidgets w !! i) as [x|] eqn:Hx; [|done]. simpl.
  intros [= Hslot]. unfold render_slot in Hslot.
  destruct x as [s|]; [|done].
  destruct (find_def (Some s)) as [d|] eqn:Hf; [|done].
  apply find_def_Some in Hf as [[= ->] Hd].
  injection Hslot as <-. simpl. split_and!; try done.
  - by apply catalog_content.
  - apply lookup_lt_Some in Hx. unfold in_bounds. lia.
Qed.

(** X5. A container rendered for slot [i] shows the catalog entry of the
    identifier held in that slot, has content, and its buttons act on that
    very slot: remove names the identifier, the arrows name index [i],
    which is in bounds. *)
Theorem rendered_container_bound_to_slot (w : world) (i : nat) (c : container) :
  render_grid w !! i = Some (Some c) →
  activeWidgets w !! i = Some (Some (key c))
  ∧ def c ∈ AVAILABLE_WIDGETS ∧ Widget.id (def c) = key c
  ∧ is_Some (children c)
  ∧ c_editMode c = editMode w
  ∧ onRemove c = Remove (key c)
  ∧ (∀ dir, onMove c dir = Move (Z.of_nat i) dir)
  ∧ in_bounds (activeWidgets w) (Z.of_nat i).
Proof. apply render_grid_Some. Qed.

Lemma rendered_container_bound_to_slot_witness :
  let w := unmounted None (ids ["w-gone"; "w-timer"]%string) in
  ∃ c, render_grid w !! 1%nat = Some (Some c)
       ∧ activeWidgets w !! 1%nat = Some (Some (key c))
       ∧ onRemove c = Remove (js "w-timer")
       ∧ onMove c left = Move 1 left.
Proof.
  intros w. eexists. split; [reflexivity|].
  match goal with |- context [key ?c] =>
    destruct (rendered_container_bound_to_slot w 1 c eq_refl)
      as (Hslot & _ & _ & _ & _ & Hrm & Hmv & _)
  end.
  split_and!; [exact Hslot|exact Hrm|exact (Hmv left)].
Defined.

(** ** What the interface offers *)

Section offered.
Implicit Types (w : world) (a : action) (e : event) (d : WidgetDef).

Lemma elem_of_availableToAdd w d :
  d ∈ availableToAdd w
  ↔ d ∈ AVAILABLE_WIDGETS ∧ Some (Widget.id d) ∉ activeWidgets w.
Proof.
  unfold availableToAdd. rewrite list_elem_of_In, List.filter_In, <- list_elem_of_In.
  rewrite negb_true_iff, <- not_true_iff_false, includes_spec. done.
Qed.

(** Where an offered layout action comes from. *)
Lemma offered_layout w a :
  Layout a ∈ offered w →
  (editMode w = true
   ∧ ∃ (i : nat) c, render_grid w !! i = Some (Some c)
       ∧ (a = onRemove c ∨ ∃ dir, a = onMove c dir))
  ∨ (showAddModal w = true
     ∧ ∃ d, d ∈ availableToAdd w ∧ a = Add (Widget.id d)).
Proof.
  unfold offered. rewrite elem_of_cons, !elem_of_app.
  intros [[=]|[Hctl|[Hopen|Hmodal]]].
  - left. apply list_elem_of_join in Hctl as (ctl & Ha & Hctl).
    apply list_elem_of_fmap in Hctl as (c & -> & Hc).
    apply list_elem_of_omap in Hc as (oc & Hoc & Hid). simpl in Hid. subst oc.
    apply list_elem_of_lookup_1 in Hoc as [i Hi].
    destruct (render_grid_Some w i c Hi) as (_ & _ & _ & _ & Hedit & _).
    unfold container_controls in Ha. rewrite Hedit in Ha.
    destruct (editMode w); [|by apply elem_of_nil in Ha].
    split; [done|]. exists i, c. split; [done|].
    rewrite !elem_of_cons, elem_of_nil in Ha.
    destruct Ha as [[= ->]|[[= ->]|[[= ->]|[]]]]; eauto.
  - destruct (editMode w && negb (length (availableToAdd w) =? 0)%nat).
    + by apply list_elem_of_singleton in Hopen.
    + by apply elem_of_nil in Hopen.
  - right. destruct (showAddModal w); [|by apply elem_of_nil in Hmodal].
    split; [done|]. apply elem_of_cons in Hmodal as [[=]|Hadd].
    apply list_elem_of_fmap in Hadd as (d & [= ->] & Hd). eauto.
Qed.

Lemma offered_move w (i : Z) dir :
  Layout (Move i dir) ∈ offered w →
  editMode w = true ∧ in_bounds (activeWidgets w) i.
Proof.
  intros [(Hedit & k & c & Hc & Ha)|(_ & d & _ & [=])]%offered_layout.
  split; [done|].
  destruct (render_grid_Some w k c Hc) as (_ & _ & _ & _ & _ & Hrm & Hmv & Hk).
  destruct Ha as [Ha|[dir' Ha]].
  - by rewrite Hrm in Ha.
  - rewrite Hmv in Ha. by injection Ha as -> _.
Qed.

Lemma offered_remove w id :
  Layout (Remove id) ∈ offered w →
  editMode w = true ∧ Some id ∈ activeWidgets w ∧ id ∈ catalog_ids.
Proof.
  intros [(Hedit & k & c & Hc & Ha)|(_ & d & _ & [=])]%offered_layout.
  split; [done|].
  destruct (render_grid_Some w k c Hc) as (Hslot & Hdef & Hid & _ & _ & Hrm & Hmv & _).
  destruct Ha as [Ha|[dir' Ha]].
  - rewrite Hrm in Ha. injection Ha as ->. split.
    + by apply list_elem_of_lookup_2 in Hslot.
    + rewrite <- Hid. by apply list_elem_of_fmap_2.
  - by rewrite Hmv in Ha.
Qed.

Lemma offered_add w id :
  Layout (Add id) ∈ offered w →
  showAddModal w = true ∧ (Some id ∉ activeWidgets w) ∧ id ∈ catalog_ids.
Proof.
  intros [(_ & k & c & Hc & Ha)|(Hmodal & d & Hd & [= ->])]%offered_layout.
  - destruct (render_grid_Some w k c Hc) as (_ & _ & _ & _ & _ & Hrm & Hmv & _).
    destruct Ha as [Ha|[dir' Ha]]; [by rewrite Hrm in Ha|by rewrite Hmv in Ha].
  - apply elem_of_availableToAdd in Hd as [Hd Hout].
    split_and!; [done|done|by apply list_elem_of_fmap_2].
Qed.

Lemma offered_open w : OpenAddModal ∈ offered w → editMode w = true.
Proof.
  unfold offered. rewrite elem_of_cons, !elem_of_app.
  intros [[=]|[Hctl|[Hopen|Hmodal]]].
  - apply list_elem_of_join in Hctl as (ctl & Ha & Hctl).
    apply list_elem_of_fmap in Hctl as (c & -> & Hc).
    unfold container_controls in Ha. destruct (c_editMode c).
    + rewrite !elem_of_cons, elem_of_nil in Ha. by destruct Ha as [|[|[|[]]]].
    + by apply elem_of_nil in Ha.
  - destruct (editMode w); [done|]. by apply elem_of_nil in Hopen.
  - destruct (showAddModal w); [|by apply elem_of_nil in Hmodal].
    apply elem_of_cons in Hmodal as [[=]|Hadd].
    by apply list_elem_of_fmap in Hadd as (d & [=] & _).
Qed.
End offered.

(** X6. The interface gates its actions: arrows, remove buttons and the add
    button are offered in edit mode only; an add is offered only while the
    modal is shown, and only for a catalog identifier the sequence does not
    hold; an arrow is offered only for an existing slot and a remove only
    for an identifier the sequence holds. *)
Theorem offered_events_gated (w : world) (e : event) :
  e ∈ offered w →
  match e with
  | Layout (Move i dir) => editMode w = true ∧ in_bounds (activeWidgets w) i
  | Layout (Remove id) =>
    editMode w = true ∧ Some id ∈ activeWidgets w ∧ id ∈ catalog_ids
  | Layout (Add id) =>
    showAddModal w = true ∧ (Some id ∉ activeWidgets w) ∧ id ∈ catalog_ids
  | OpenAddModal => editMode w = true
  | ToggleEdit | CloseAddModal => True
  end.
Proof.
  destruct e as [[i dir|id|id]| | |]; try done.
  - apply offered_move.
  - apply offered_remove.
  - apply offered_add.
  - apply offered_open.
Qed.

Lemma offered_events_gated_witness :
  let w := dispatch (persist (unmounted None (Some <$> default_ids))) ToggleEdit in
  editMode w = true ∧ in_bounds (activeWidgets w) 4.
Proof.
  intros w. apply (offered_events_gated w (Layout (Move 4 left))).
  apply list_elem_of_In. vm_compute. tauto.
Defined.

(** ** Sessions driven through the interface *)

Section sessions.
Implicit Types (w : world) (a : action) (e : event) (l : list elem).

Lemma idents_NoDup l : NoDup l → NoDup (idents l).
Proof.
  unfold idents. induction 1 as [|x l Hx _ IH]; [constructor|].
  destruct x as [s|]; simpl; [|done].
  constructor; [|done]. by rewrite (elem_of_idents l s).
Qed.

Lemma strings_length l : Forall is_Some l → length (idents l) = length l.
Proof. intros Hl. by rewrite (strings_idents l Hl) at 2; rewrite length_fmap. Qed.

Lemma dispatch_other_activeWidgets w e :
  (∀ a, e ≠ Layout a) → activeWidgets (dispatch w e) = activeWidgets w.
Proof. intros He. destruct e as [a| | |]; [by destruct (He a)|done..]. Qed.

Lemma dispatch_offered_sound w e :
  e ∈ offered w →
  Forall is_Some (activeWidgets w) → NoDup (activeWidgets w) →
  Forall is_Some (activeWidgets (dispatch w e))
  ∧ NoDup (activeWidgets (dispatch w e)).
Proof.
  intros He Hstr Hnd. destruct e as [a| | |]; try done.
  rewrite dispatch_activeWidgets.
  assert (Hs : Forall is_Some (step (activeWidgets w) a)).
  { apply step_strings; [done|]. intros i d ->.
    by destruct (offered_move w i d He). }
  split; [done|]. apply strings_NoDup; [done|].
  by apply step_NoDup, idents_NoDup.
Qed.

Lemma step_within_catalog l a :
  idents l ⊆ catalog_ids → (∀ id, a = Add id → id ∈ catalog_ids) →
  idents (step l a) ⊆ catalog_ids.
Proof.
  intros Hl Hadd. unfold step, rerender.
  destruct (handle l a) as [l'|] eqn:Hh; simpl; [|done].
  destruct (handle_idents l a l' Hh) as [Hsub|(id & -> & _ & ->)].
  - intros x Hx. apply Hl. by apply (elem_of_submseteq _ _ _ Hx).
  - intros x [Hx|Hx]%elem_of_app; [by apply Hl|].
    apply list_elem_of_singleton in Hx as ->. by apply Hadd.
Qed.

Lemma dispatch_offered_within_catalog w e :
  e ∈ offered w → idents (activeWidgets w) ⊆ catalog_ids →
  idents (activeWidgets (dispatch w e)) ⊆ catalog_ids.
Proof.
  intros He Hl. destruct e as [a| | |]; try done.
  rewrite dispatch_activeWidgets. apply step_within_catalog; [done|].
  intros id ->. by destruct (offered_add w id He) as (_ & _ & ?).
Qed.

Lemma session_offered_sound w es :
  offered_session w es →
  Forall is_Some (activeWidgets w) → NoDup (activeWidgets w) →
  Forall is_Some (activeWidgets (session w es))
  ∧ NoDup (activeWidgets (session w es)).
Proof.
  revert w. induction es as [|e es IH]; intros w Hes Hstr Hnd; [done|].
  destruct Hes as [He Hes]. simpl.
  destruct (dispatch_offered_sound w e He Hstr Hnd) as [Hstr' Hnd'].
  by apply IH.
Qed.

Lemma session_offered_within_catalog w es :
  offered_session w es → idents (activeWidgets w) ⊆ catalog_ids →
  idents (activeWidgets (session w es)) ⊆ catalog_ids.
Proof.
  revert w. induction es as [|e es IH]; intros w Hes Hl; [done|].
  destruct Hes as [He Hes]. simpl.
  by apply IH, dispatch_offered_within_catalog.
Qed.

Lemma mount_stringify_world (l : list jsstring) :
  mount (Some (JSON.stringify (Some <$> l)))
  = Returned (Some (persist (unmounted (Some (JSON.stringify (Some <$> l)))
                               (Some <$> l)))).
Proof. unfold mount. by rewrite load_stringify, as_layout_strings. Qed.
End sessions.

(** X7. Whatever is done through the interface, a sequence of distinct
    strings stays a sequence of distinct strings: no slot becomes
    [undefined] and no widget appears twice. *)
Theorem interface_keeps_layout_sound (w : world) (es : list event) :
  Forall is_Some (activeWidgets w) → NoDup (activeWidgets w) →
  offered_session w es →
  Forall is_Some (activeWidgets (session w es))
  ∧ NoDup (activeWidgets (session w es)).
Proof. intros Hstr Hnd Hes. by apply session_offered_sound. Qed.

(** X8. If moreover every identifier of the sequence is in the catalog,
    this stays so through the interface, and the sequence never holds more
    than the five widgets of the catalog. *)
Theorem interface_keeps_layout_in_catalog (w : world) (es : list event) :
  Forall is_Some (activeWidgets w) → NoDup (activeWidgets w) →
  idents (activeWidgets w) ⊆ catalog_ids →
  offered_session w es →
  idents (activeWidgets (session w es)) ⊆ catalog_ids
  ∧ (length (activeWidgets (session w es)) ≤ 5)%nat.
Proof.
  intros Hstr Hnd Hcat Hes.
  destruct (session_offered_sound w es Hes Hstr Hnd) as [Hstr' Hnd'].
  pose proof (session_offered_within_catalog w es Hes Hcat) as Hcat'.
  split; [done|]. rewrite <- strings_length by done.
  change 5%nat with (length catalog_ids).
  apply submseteq_length, NoDup_submseteq; [by apply idents_NoDup|done].
Qed.

(** X9. Reloading after a session driven through the interface shows the
    sequence the session ended with, in browsing mode and with the modal
    closed. *)
Theorem reload_after_session (st : option jsstring) (w : world) (es : list event) :
  mount st = Returned (Some w) → NoDup (activeWidgets w) →
  offered_session w es →
  ∃ w', mount (storage (session w es)) = Returned (Some w')
        ∧ activeWidgets w' = activeWidgets (session w es)
        ∧ editMode w' = false ∧ showAddModal w' = false.
Proof.
  intros Hmount Hnd Hes.
  assert (Hstr : Forall is_Some (activeWidgets w)).
  { destruct (mount_strings st w Hmount) as (l & _ & ->).
    apply Forall_fmap, Forall_true. by eexists. }
  destruct (session_offered_sound w es Hes Hstr Hnd) as [Hstr' _].
  pose proof (session_persisted w es (mount_persisted st w Hmount)) as Hp.
  unfold persisted in Hp. rewrite Hp.
  pose proof (strings_idents _ Hstr') as Hl.
  remember (idents (activeWidgets (session w es))) as l' eqn:Hl'.
  rewrite Hl, mount_stringify_world. eexists. by split.
Qed.

Lemma demo_session_offered :
  offered_session (persist (unmounted None (Some <$> default_ids)))
    [ToggleEdit; Layout (Move 1 right); Layout (Remove (js "w-stats"));
     OpenAddModal; Layout (Add (js "w-stats")); ToggleEdit].
Proof.
  simpl. repeat split; apply list_elem_of_In; vm_compute; tauto.
Qed.

Lemma interface_keeps_layout_sound_witness :
  let w := persist (unmounted None (Some <$> default_ids)) in
  let es := [ToggleEdit; Layout (Move 1 right); Layout (Remove (js "w-stats"));
             OpenAddModal; Layout (Add (js "w-stats")); ToggleEdit] in
  Forall is_Some (activeWidgets (session w es))
  ∧ NoDup (activeWidgets (session w es)).
Proof.
  intros w es. apply (interface_keeps_layout_sound w es).
  - apply (bool_decide_unpack _). vm_compute. exact I.
  - apply (bool_decide_unpack _). vm_compute. exact I.
  - exact demo_session_offered.
Defined.

Lemma interface_keeps_layout_in_catalog_witness :
  let w := persist (unmounted None (Some <$> default_ids)) in
  let es := [ToggleEdit; Layout (Move 1 right); Layout (Remove (js "w-stats"));
             OpenAddModal; Layout (Add (js "w-stats")); ToggleEdit] in
  idents (activeWidgets (session w es)) ⊆ catalog_ids
  ∧ (length (activeWidgets (session w es)) ≤ 5)%nat.
Proof.
  intros w es. apply (interface_keeps_layout_in_catalog w es).
  - apply (bool_decide_unpack _). vm_compute. exact I.
  - apply (bool_decide_unpack _). vm_compute. exact I.
  - done.
  - exact demo_session_offered.
Defined.

Lemma reload_after_session_witness :
  let w := persist (unmounted None (Some <$> default_ids)) in
  let es := [ToggleEdit; Layout (Move 1 right); Layout (Remove (js "w-stats"));
             OpenAddModal; Layout (Add (js "w-stats")); ToggleEdit] in
  ∃ w', mount (storage (session w es)) = Returned (Some w')
        ∧ activeWidgets w'
          = ids ["w-ai"; "w-activity"; "w-saved"; "w-timer"; "w-stats"]%string
        ∧ editMode w' = false ∧ showAddModal w' = false.
Proof.
  intros w es.
  destruct (reload_after_session None w es) as (w' & Hmount & Hl & Hedit & Hmodal).
  - reflexivity.
  - apply (bool_decide_unpack _). vm_compute. exact I.
  - exact demo_session_offered.
  - exists w'. split_and!; [exact Hmount| |exact Hedit|exact Hmodal].
    rewrite Hl. reflexivity.
Defined.

(** ** The add modal *)

Section available.
Implicit Types (w : world) (d : WidgetDef).

Lemma dispatch_add_showAddModal w id :
  showAddModal (dispatch w (Layout (Add id))) = false.
Proof. simpl. by destruct (addWidget (activeWidgets w) id). Qed.
End available.

(** X10. Choosing an entry of the add modal always adds: the chosen widget
    goes to the end of the sequence, the modal closes, and what can be
    added afterwards is what could be added before, the chosen entry left
    out. *)
Theorem add_offered_widget (w : world) (d : WidgetDef) :
  d ∈ availableToAdd w →
  activeWidgets (dispatch w (Layout (Add (Widget.id d))))
  = activeWidgets w ++ [Some (Widget.id d)]
  ∧ showAddModal (dispatch w (Layout (Add (Widget.id d)))) = false
  ∧ ∀ d', d' ∈ availableToAdd (dispatch w (Layout (Add (Widget.id d))))
          ↔ d' ∈ availableToAdd w ∧ d' ≠ d.
Proof.
  intros [Hd Hout]%elem_of_availableToAdd.
  assert (Hadd : activeWidgets (dispatch w (Layout (Add (Widget.id d))))
                 = activeWidgets w ++ [Some (Widget.id d)]).
  { rewrite dispatch_activeWidgets. by apply step_add_fresh. }
  split_and!; [done|apply dispatch_add_showAddModal|].
  intros d'. rewrite !elem_of_availableToAdd, Hadd, not_elem_of_app.
  rewrite list_elem_of_singleton. split.
  - intros (Hd' & Hout' & Hne). split_and!; [done|done|]. by intros ->.
  - intros ((Hd' & Hout') & Hne). split_and!; [done|done|].
    intros [= Hid]. by apply Hne, catalog_id_inj.
Qed.

Lemma add_offered_widget_witness :
  let w := unmounted None (ids ["w-timer"; "w-ai"]%string) in
  activeWidgets (dispatch w (Layout (Add (js "w-saved"))))
  = ids ["w-timer"; "w-ai"; "w-saved"]%string
  ∧ showAddModal (dispatch w (Layout (Add (js "w-saved")))) = false.
Proof.
  intros w.
  destruct (add_offered_widget w
              {| Widget.id := js "w-saved"; Widget.type := saved;
                 Widget.title := js "Saved For Later"; Widget.colSpan := 2 |})
    as (Hadd & Hmodal & _).
  - apply list_elem_of_In. vm_compute. tauto.
  - split; [exact Hadd|exact Hmodal].
Defined.

(** X11. Removing a widget makes its catalog entry available to add again
    and changes the availability of no other entry. *)
Theorem remove_makes_available (w : world) (id : jsstring) (d : WidgetDef) :
  d ∈ availableToAdd (dispatch w (Layout (Remove id)))
  ↔ d ∈ availableToAdd w ∨ (d ∈ AVAILABLE_WIDGETS ∧ Widget.id d = id).
Proof.
  rewrite !elem_of_availableToAdd, dispatch_activeWidgets, step_remove.
  rewrite list_elem_of_filter. split.
  - intros [Hd Hout]. destruct (decide (Widget.id d = id)) as [Hid|Hid]; [by right|].
    left. split; [done|]. intros Hin. apply Hout. split; [|done]. by intros [=].
  - intros [[Hd Hout]|[Hd <-]]; (split; [done|]).
    + by intros [_ Hin].
    + by intros [Hne _].
Qed.

(** ** Reading back any persisted sequence *)

Section json_slots.
Import JSON.
Implicit Types (a : list elem) (e : elem) (rest : jsstring).

Lemma parse_value_elem fuel e rest :
  (0 < fuel)%nat →
  parse_value fuel (stringify_elem e ++ rest) = Some (elem_value e, rest).
Proof.
  intros Hfuel. destruct e as [s|]; [by apply parse_value_quote|].
  destruct fuel as [|fuel]; [lia|]. done.
Qed.

Lemma parse_elements_join_elems a fuel rest :
  a ≠ [] → (length a < fuel)%nat →
  parse_elements fuel (join_elems a ++ 93 :: rest)
  = Some (elem_value <$> a, rest).
Proof.
  revert fuel. induction a as [|x a IH]; intros fuel Hne Hfuel; [done|].
  destruct fuel as [|fuel]; [lia|]. simpl in Hfuel.
  rewrite parse_elements_S. destruct a as [|y a].
  - change (join_elems [x]) with (stringify_elem x).
    by rewrite parse_value_elem by lia.
  - rewrite join_elems_cons by done.
    rewrite <- (assoc_L (++)), <- app_comm_cons.
    rewrite parse_value_elem by lia. cbn [mbind option_bind].
    change (skip_ws (44 :: ?t)) with (44 :: t). cbn [N.eqb Pos.eqb].
    rewrite IH; [done|done|]. simpl in *. lia.
Qed.

Lemma length_join_elems_any a : (length a ≤ length (join_elems a))%nat.
Proof.
  induction a as [|x [|y a] IH]; [done|by destruct x; simpl; lia|].
  rewrite join_elems_cons by done.
  rewrite length_app. simpl in *. lia.
Qed.

Lemma parse_stringify_any a :
  parse (stringify a) = Returned (JArray (elem_value <$> a)).
Proof.
  unfold parse.
  assert (Hfuel : (S (length a) < 2 * length (stringify a) + 2)%nat).
  { pose proof (length_join_elems_any a). unfold stringify. simpl.
    rewrite length_app. simpl. lia. }
  destruct (2 * length (stringify a) + 2)%nat as [|fuel]; [lia|].
  unfold stringify. destruct a as [|x a]; [done|].
  rewrite parse_value_array.
  rewrite (parse_elements_join_elems (x :: a) fuel []); [|done|simpl in *; lia].
  by destruct x, a.
Qed.
End json_slots.

(** X12. What the effect has written can always be read back: the
    start-up read of a persisted sequence never throws, strings come back
    as they were, and a slot that held [undefined] comes back as [null]. *)
Theorem load_persisted_never_throws (w : world) :
  load (storage (persist w))
  = Returned (JSON.JArray (elem_value <$> activeWidgets w)).
Proof.
  simpl. rewrite load_truthy by done. apply parse_stringify_any.
Qed.

(** ** The briefing widget, event by event *)

Section briefing_events.
Import Briefing.
Implicit Types (key : option jsstring) (s : state) (e : event)
  (evs : list event) (r : settlement).

Lemma last_default_irrelevant {A} (l : list A) (d d' : A) :
  l ≠ [] → List.last l d = List.last l d'.
Proof.
  induction l as [|x [|y l] IH]; [done|done|]. intros _.
  change (List.last (y :: l) d = List.last (y :: l) d'). by apply IH.
Qed.

Lemma last_app_r {A} (l h : list A) (d d' : A) :
  h ≠ [] → List.last (l ++ h) d = List.last h d'.
Proof.
  intros Hh. induction l as [|x l IH]; [by apply last_default_irrelevant|].
  rewrite <- app_comm_cons.
  destruct (l ++ h) as [|y t] eqn:Hlh; [by destruct l, h|].
  exact IH.
Qed.

Lemma trace_nil_settle key s e :
  trace (settle_one s e) (react key s e) = [] → settle_one s e = s.
Proof.
  destruct e as [|r]; simpl.
  - unfold generateBriefing. by destruct (negb (truthy key)).
  - unfold settle_one. destruct (in_flight s); [done|by destruct r].
Qed.

Lemma final_cons key s e evs :
  final key s (e :: evs) = final key (after key s e) evs.
Proof.
  unfold final, after. simpl history.
  set (tr := trace (settle_one s e) (react key s e)).
  set (s1 := List.last tr (settle_one s e)).
  destruct (history key s1 evs) as [|x h] eqn:Hh.
  - rewrite app_nil_r. simpl. subst s1.
    destruct tr as [|y tr'] eqn:Htr.
    + simpl. symmetry. by apply (trace_nil_settle key).
    + by apply last_default_irrelevant.
  - by apply last_app_r.
Qed.

Lemma final_app key s evs evs' :
  final key s (evs ++ evs') = final key (final key s evs) evs'.
Proof.
  revert s. induction evs as [|e evs IH]; intros s; [done|].
  rewrite <- app_comm_cons, !final_cons. apply IH.
Qed.

Lemma after_trigger_on key s :
  truthy key = true →
  after key s Trigger
  = {| briefing := briefing s; loading := true;
       in_flight := S (in_flight s); started := S (started s) |}.
Proof. intros Hkey. unfold after. simpl. unfold generateBriefing. by rewrite Hkey. Qed.

Lemma after_trigger_off key s :
  truthy key = false →
  after key s Trigger
  = {| briefing := Some msg_not_configured; loading := loading s;
       in_flight := in_flight s; started := started s |}.
Proof. intros Hkey. unfold after. simpl. unfold generateBriefing. by rewrite Hkey. Qed.

Lemma after_settle key s r n :
  in_flight s = S n →
  after key s (Settle r)
  = {| briefing := outcome r; loading := false;
       in_flight := n; started := started s |}.
Proof.
  intros Hn. unfold after, settle_one. simpl. rewrite Hn. by destruct r.
Qed.

Lemma after_settle_idle key s r :
  in_flight s = 0%nat → after key s (Settle r) = s.
Proof. intros Hn. unfold after, settle_one. simpl. by rewrite Hn. Qed.

Lemma after_pending_ok key s e : pending_ok s → pending_ok (after key s e).
Proof.
  unfold pending_ok. intros [Hl Hle]. destruct e as [|r].
  - destruct (truthy key) eqn:Hkey.
    + rewrite after_trigger_on by done. simpl. split; [lia|lia].
    + rewrite after_trigger_off by done. done.
  - destruct (in_flight s) as [|n] eqn:Hn.
    + rewrite after_settle_idle by done. rewrite Hn. done.
    + rewrite (after_settle key s r n Hn). simpl. split; [done|lia].
Qed.

Lemma final_pending_ok key s evs : pending_ok s → pending_ok (final key s evs).
Proof.
  revert s. induction evs as [|e evs IH]; intros s Hs; [done|].
  rewrite final_cons. by apply IH, after_pending_ok.
Qed.

Lemma final_started key s evs :
  started (final key s evs)
  = (started s + if truthy key then triggers evs else 0)%nat.
Proof.
  revert s. induction evs as [|e evs IH]; intros s.
  - unfold final. simpl. destruct (truthy key); lia.
  - rewrite final_cons, IH. destruct e as [|r].
    + destruct (truthy key) eqn:Hkey.
      * rewrite after_trigger_on by done. simpl. lia.
      * by rewrite after_trigger_off by done.
    + destruct (in_flight s) as [|n] eqn:Hn.
      * by rewrite after_settle_idle by done.
      * by rewrite (after_settle key s r n Hn).
Qed.
End briefing_events.

(** X13. After any events, if the widget shows the loading placeholder
    then a call is in flight, and the calls in flight never outnumber the
    calls started. *)
Theorem placeholder_means_pending (API_KEY : option jsstring)
    (evs : list Briefing.event) :
  (Briefing.loading (Briefing.final API_KEY Briefing.initial evs) = true →
     (0 < Briefing.in_flight (Briefing.final API_KEY Briefing.initial evs))%nat)
  ∧ (Briefing.in_flight (Briefing.final API_KEY Briefing.initial evs)
     ≤ Briefing.started (Briefing.final API_KEY Briefing.initial evs))%nat.
Proof.
  apply (final_pending_ok API_KEY Briefing.initial evs).
  split; [done|]. simpl. lia.
Qed.

Lemma placeholder_means_pending_witness :
  let s := Briefing.final (Some (js "k")) Briefing.initial
             [Briefing.Trigger; Briefing.Trigger;
              Briefing.Settle Briefing.Rejected; Briefing.Trigger] in
  (0 < Briefing.in_flight s)%nat.
Proof.
  intros s.
  destruct (placeholder_means_pending (Some (js "k"))
              [Briefing.Trigger; Briefing.Trigger;
               Briefing.Settle Briefing.Rejected; Briefing.Trigger])
    as [Hpending _].
  apply Hpending. reflexivity.
Defined.

(** X14. With an API key every call of [generateBriefing], the one on
    mount and each refresh, starts a [generateContent] call, none is
    skipped or merged; without a key none is ever started. *)
Theorem every_trigger_starts_a_call (API_KEY : option jsstring)
    (evs : list Briefing.event) :
  Briefing.started (Briefing.final API_KEY Briefing.initial evs)
  = if truthy API_KEY then Briefing.triggers evs else 0%nat.
Proof. by rewrite final_started. Qed.

(** X15. With an API key, mount followed by a fulfilled call shows the
    placeholder in between and then the response text, with nothing left
    in flight; a response whose text is empty or undefined shows the
    welcome line instead. *)
Theorem fulfilled_call_shows_text (API_KEY text : option jsstring) :
  truthy API_KEY = true →
  Briefing.display (Briefing.final API_KEY Briefing.initial [Briefing.Trigger])
  = Briefing.Skeleton
  ∧ Briefing.final API_KEY Briefing.initial
      [Briefing.Trigger; Briefing.Settle (Briefing.Fulfilled text)]
    = {| Briefing.briefing := text; Briefing.loading := false;
         Briefing.in_flight := 0; Briefing.started := 1 |}
  ∧ Briefing.display
      (Briefing.final API_KEY Briefing.initial
         [Briefing.Trigger; Briefing.Settle (Briefing.Fulfilled text)])
    = Briefing.Paragraph (if truthy text then default [] text
                          else Briefing.msg_welcome).
Proof.
  intros Hkey.
  rewrite !final_cons, after_trigger_on by done.
  rewrite (after_settle API_KEY _ (Briefing.Fulfilled text) 0) by done.
  done.
Qed.

Lemma fulfilled_call_shows_text_witness :
  Briefing.display
    (Briefing.final (Some (js "k")) Briefing.initial
       [Briefing.Trigger; Briefing.Settle (Briefing.Fulfilled (Some (js "Hi")))])
  = Briefing.Paragraph (js "Hi")
  ∧ Briefing.display
      (Briefing.final (Some (js "k")) Briefing.initial
         [Briefing.Trigger; Briefing.Settle (Briefing.Fulfilled (Some []))])
    = Briefing.Paragraph Briefing.msg_welcome.
Proof.
  split.
  - destruct (fulfilled_call_shows_text (Some (js "k")) (Some (js "Hi")))
      as (_ & _ & Hshow); [reflexivity|exact Hshow].
  - destruct (fulfilled_call_shows_text (Some (js "k")) (Some []))
      as (_ & _ & Hshow); [reflexivity|exact Hshow].
Defined.

(** X16. A rejected call sets the failure message, clears the placeholder
    and starts nothing by itself; a refresh afterwards starts a second
    call, whose fulfilment replaces the failure message. *)
Theorem rejected_call_then_refresh (API_KEY text : option jsstring) :
  truthy API_KEY = true →
  Briefing.final API_KEY Briefing.initial
    [Briefing.Trigger; Briefing.Settle Briefing.Rejected]
  = {| Briefing.briefing := Some Briefing.msg_failed;
       Briefing.loading := false;
       Briefing.in_flight := 0; Briefing.started := 1 |}
  ∧ Briefing.final API_KEY Briefing.initial
      [Briefing.Trigger; Briefing.Settle Briefing.Rejected;
       Briefing.Trigger; Briefing.Settle (Briefing.Fulfilled text)]
    = {| Briefing.briefing := text; Briefing.loading := false;
         Briefing.in_flight := 0; Briefing.started := 2 |}.
Proof.
  intros Hkey.
  rewrite !final_cons, !after_trigger_on by done.
  rewrite (after_settle API_KEY _ Briefing.Rejected 0) by done.
  rewrite (after_settle API_KEY _ (Briefing.Fulfilled text) 0) by done.
  done.
Qed.

Lemma rejected_call_then_refresh_witness :
  Briefing.briefing
    (Briefing.final (Some (js "k")) Briefing.initial
       [Briefing.Trigger; Briefing.Settle Briefing.Rejected])
  = Some Briefing.msg_failed.
Proof.
  destruct (rejected_call_then_refresh (Some (js "k")) None) as [Hrej _];
    [reflexivity|].
  by rewrite Hrej.
Defined.

(** X17. Settlements are applied in the order they arrive, whichever call
    they belong to. With two calls in flight, the first settlement already
    clears the placeholder and shows its result while the other call is
    still in flight, and the second settlement then overwrites that
    result. *)
Theorem overlapping_calls_last_settled_wins (API_KEY : option jsstring)
    (r1 r2 : Briefing.settlement) :
  truthy API_KEY = true →
  Briefing.final API_KEY Briefing.initial
    [Briefing.Trigger; Briefing.Trigger; Briefing.Settle r1]
  = {| Briefing.briefing := Briefing.outcome r1; Briefing.loading := false;
       Briefing.in_flight := 1; Briefing.started := 2 |}
  ∧ Briefing.final API_KEY Briefing.initial
      [Briefing.Trigger; Briefing.Trigger; Briefing.Settle r1;
       Briefing.Settle r2]
    = {| Briefing.briefing := Briefing.outcome r2; Briefing.loading := false;
         Briefing.in_flight := 0; Briefing.started := 2 |}.
Proof.
  intros Hkey.
  rewrite !final_cons, !after_trigger_on by done.
  rewrite (after_settle API_KEY _ r1 1) by done.
  rewrite (after_settle API_KEY _ r2 0) by done.
  done.
Qed.

Lemma overlapping_calls_last_settled_wins_witness :
  Briefing.final (Some (js "k")) Briefing.initial
    [Briefing.Trigger; Briefing.Trigger;
     Briefing.Settle (Briefing.Fulfilled (Some (js "new")));
     Briefing.Settle (Briefing.Fulfilled (Some (js "old")))]
  = {| Briefing.briefing := Some (js "old"); Briefing.loading := false;
       Briefing.in_flight := 0; Briefing.started := 2 |}.
Proof.
  destruct (overlapping_calls_last_settled_wins (Some (js "k"))
              (Briefing.Fulfilled (Some (js "new")))
              (Briefing.Fulfilled (Some (js "old")))) as [_ Hlast];
    [reflexivity|exact Hlast].
Defined.

(** ** The focus timer *)

Section timer.
Import Timer.
Implicit Types (s : state) (e : event) (evs : list event).

Ltac timer_cases :=
  unfold valid, step, effect, interval_installed in *; simpl in *;
  repeat match goal with
  | |- context [isActive ?s] => is_var s; destruct s as [? []]; simpl in *
  | |- context [(?a <? ?b)%Z] => destruct (Z.ltb_spec a b); simpl in *
  | |- context [(?a =? ?b)%Z] => destruct (Z.eqb_spec a b); simpl in *
  end.

Lemma step_valid s e : valid s → valid (step s e).
Proof. intros Hs. destruct e; timer_cases; split; (lia || intros [=] || done). Qed.

Lemma run_valid s evs : valid s → valid (run s evs).
Proof.
  revert s. induction evs as [|e evs IH]; intros s Hs; [done|].
  simpl. by apply IH, step_valid.
Qed.

Lemma step_tick_running s :
  isActive s = true → (1 < time s)%Z →
  step s Tick = {| time := time s - 1; isActive := true |}.
Proof. intros Ha Ht. destruct s as [t a]. simpl in *. subst a. timer_cases; (done || lia). Qed.

Lemma step_tick_last s :
  isActive s = true → time s = 1%Z →
  step s Tick = {| time := 0; isActive := false |}.
Proof. intros Ha Ht. destruct s as [t a]. simpl in *. by subst a t. Qed.

Lemma step_expired s e :
  time s = 0%Z → isActive s = false → e ≠ Reset → step s e = s.
Proof. intros Ht Ha He. destruct s as [t a]. simpl in *. subst t a. by destruct e. Qed.

Lemma two_digits (z : Z) :
  (0 ≤ z < 100)%Z →
  padStart 2 48 (String_of z) = [Z.to_N (48 + z / 10); Z.to_N (48 + z mod 10)].
Proof.
  assert (H : Forall (λ z, padStart 2 48 (String_of z)
                           = [Z.to_N (48 + z / 10); Z.to_N (48 + z mod 10)])
                (seqZ 0 100)).
  { apply (bool_decide_unpack _). vm_compute. exact I. }
  intros Hz. by apply (proj1 (Forall_seqZ _ 0 100) H).
Qed.

Lemma face_valid s :
  valid s →
  face s = [Z.to_N (48 + time s / 60 / 10); Z.to_N (48 + (time s / 60) mod 10);
            58;
            Z.to_N (48 + (time s mod 60) / 10);
            Z.to_N (48 + (time s mod 60) mod 10)].
Proof.
  intros [Ht _]. unfold face, minutes, seconds.
  rewrite Z.rem_mod_nonneg by lia.
  rewrite !two_digits; [done| |].
  - pose proof (Z.mod_pos_bound (time s) 60). lia.
  - split; [apply Z.div_pos; lia|]. apply Z.div_lt_upper_bound; lia.
Qed.
End timer.

Section timer_renders.
Import Timer.
Implicit Types (s : state) (e : event) (evs : list event).

Lemma effect_time s : time (effect s) = time s.
Proof.
  unfold effect. destruct (interval_installed s); [done|].
  by destruct (time s =? 0)%Z.
Qed.

(** On a settled state, the effect after the committed change gives the
    state of [step]. *)
Lemma effect_commit_step s e : valid s → effect (commit s e) = step s e.
Proof.
  intros [Ht Ha]. destruct e; [|done|done].
  unfold step, commit. destruct (interval_installed s) eqn:Hi; [done|].
  unfold effect. rewrite Hi. unfold interval_installed in Hi.
  destruct s as [t [|]]; simpl in *.
  - specialize (Ha eq_refl). apply Z.ltb_ge in Hi. lia.
  - by destruct (t =? 0)%Z.
Qed.

Lemma commit_range s e :
  valid s → (0 ≤ time (commit s e) ≤ 25 * 60)%Z.
Proof.
  intros [Ht Ha]. destruct e; simpl; [|done|lia].
  destruct (interval_installed s) eqn:Hi; [|done]. simpl.
  unfold interval_installed in Hi. apply andb_true_iff in Hi as [_ Hi].
  apply Z.ltb_lt in Hi. lia.
Qed.

Lemma rendered_range s evs :
  valid s → Forall (λ s', (0 ≤ time s' ≤ 25 * 60)%Z) (rendered s evs).
Proof.
  revert s. induction evs as [|e evs IH]; intros s Hs; [constructor|].
  simpl. pose proof (commit_range s e Hs) as Hc.
  constructor; [done|]. constructor; [by rewrite effect_time|].
  apply IH. rewrite effect_commit_step by done. by apply step_valid.
Qed.

Lemma rendered_last s evs d :
  valid s → List.last (s :: rendered s evs) d = run s evs.
Proof.
  revert s. induction evs as [|e evs IH]; intros s Hs; [done|].
  change (List.last (s :: rendered s (e :: evs)) d)
    with (List.last (effect (commit s e) :: rendered (effect (commit s e)) evs) d).
  rewrite IH.
  - by rewrite effect_commit_step.
  - rewrite effect_commit_step by done. by apply step_valid.
Qed.

(** The tick that reaches zero, and Start at zero, commit a render that is
    active with no time left; the effect of that render turns it off. *)
Lemma passes_last_tick s :
  isActive s = true → time s = 1%Z →
  passes s Tick = [{| time := 0; isActive := true |};
                   {| time := 0; isActive := false |}].
Proof. intros Ha Ht. destruct s as [t a]. simpl in *. by subst. Qed.

Lemma passes_start_at_zero s :
  isActive s = false → time s = 0%Z →
  passes s Toggle = [{| time := 0; isActive := true |};
                     {| time := 0; isActive := false |}].
Proof. intros Ha Ht. destruct s as [t a]. simpl in *. by subst. Qed.
End timer_renders.

(** X18. Whatever buttons are pressed and whenever the interval fires, the
    time is between 0 and 25 minutes in every render the timer commits,
    the render shown before an effect has run included; the last of these
    renders is the state after the last effect has run, and in that state
    the timer is running only while time is left. *)
Theorem timer_stays_in_range (evs : list Timer.event) :
  Forall (λ s, (0 ≤ Timer.time s ≤ 25 * 60)%Z)
    (Timer.initial :: Timer.rendered Timer.initial evs)
  ∧ List.last (Timer.initial :: Timer.rendered Timer.initial evs) Timer.initial
    = Timer.run Timer.initial evs
  ∧ (Timer.isActive (Timer.run Timer.initial evs) = true →
     (0 < Timer.time (Timer.run Timer.initial evs))%Z).
Proof.
  assert (Hinit : Timer.valid Timer.initial) by (split; [done|by intros [=]]).
  split_and!.
  - constructor; [done|]. by apply rendered_range.
  - by apply rendered_last.
  - by apply (run_valid Timer.initial evs Hinit).
Qed.

Lemma timer_stays_in_range_witness :
  (0 < Timer.time (Timer.run Timer.initial
                     [Timer.Toggle; Timer.Tick; Timer.Tick]))%Z.
Proof.
  destruct (timer_stays_in_range [Timer.Toggle; Timer.Tick; Timer.Tick])
    as (_ & _ & Hrun).
  apply Hrun. reflexivity.
Defined.

(** X19. A running timer loses one second per tick and stops by itself on
    the tick that reaches zero: after [n] ticks, [n] at most the time
    left, the time is [n] less and the timer is running exactly if time
    is left. *)
Theorem countdown (s : Timer.state) (n : nat) :
  Timer.isActive s = true → (0 < Timer.time s)%Z →
  (Z.of_nat n ≤ Timer.time s)%Z →
  Timer.run s (replicate n Timer.Tick)
  = {| Timer.time := Timer.time s - Z.of_nat n;
       Timer.isActive := (Z.of_nat n <? Timer.time s)%Z |}.
Proof.
  revert s. induction n as [|n IH]; intros s Ha Ht Hn.
  - destruct s as [t a]. simpl in *. subst a. f_equal; [lia|].
    symmetry. apply Z.ltb_lt. lia.
  - change (Timer.run s (replicate (S n) Timer.Tick))
      with (Timer.run (Timer.step s Timer.Tick) (replicate n Timer.Tick)).
    destruct (decide (Timer.time s = 1%Z)) as [H1|H1].
    + rewrite step_tick_last by done.
      assert (n = 0%nat) as -> by lia. simpl. rewrite H1. done.
    + rewrite step_tick_running by (done || lia).
      rewrite IH by (simpl; (done || lia)). simpl. f_equal; [lia|].
      destruct (Z.ltb_spec (Z.of_nat n) (Timer.time s - 1)),
               (Z.ltb_spec (Z.of_nat (S n)) (Timer.time s)); (done || lia).
Qed.

Lemma countdown_witness :
  Timer.run (Timer.step Timer.initial Timer.Toggle) (replicate 1500 Timer.Tick)
  = {| Timer.time := 0; Timer.isActive := false |}.
Proof.
  rewrite (countdown (Timer.step Timer.initial Timer.Toggle) 1500);
    [reflexivity|reflexivity|reflexivity|simpl; lia].
Defined.

(** X20. A timer that has run out stays at zero and paused until it is
    reset: Start has no lasting effect and no tick arrives. *)
Theorem expired_timer_needs_reset (s : Timer.state) (evs : list Timer.event) :
  Timer.time s = 0%Z → Timer.isActive s = false → Timer.Reset ∉ evs →
  Timer.run s evs = s.
Proof.
  intros Ht Ha. induction evs as [|e evs IH]; [done|].
  intros [He Hevs]%not_elem_of_cons. simpl.
  rewrite step_expired by done. by apply IH.
Qed.

Lemma expired_timer_needs_reset_witness :
  Timer.run {| Timer.time := 0; Timer.isActive := false |}
    [Timer.Toggle; Timer.Tick; Timer.Toggle]
  = {| Timer.time := 0; Timer.isActive := false |}.
Proof.
  apply (expired_timer_needs_reset {| Timer.time := 0; Timer.isActive := false |});
    [reflexivity|reflexivity|].
  rewrite !not_elem_of_cons. split_and!; [done..|apply not_elem_of_nil].
Defined.

(** X21. The clock face of every state the timer can reach is two digits,
    a colon and two digits, minutes then seconds; two reachable states
    with the same face have the same time. *)
Theorem clock_face_reads_time (evs evs' : list Timer.event) :
  let s := Timer.run Timer.initial evs in
  let s' := Timer.run Timer.initial evs' in
  Timer.face s
  = [Z.to_N (48 + Timer.time s / 60 / 10);
     Z.to_N (48 + (Timer.time s / 60) mod 10);
     58;
     Z.to_N (48 + (Timer.time s mod 60) / 10);
     Z.to_N (48 + (Timer.time s mod 60) mod 10)]
  ∧ (Timer.face s = Timer.face s' → Timer.time s = Timer.time s').
Proof.
  intros s s'.
  assert (Hs : Timer.valid s) by (apply run_valid; split; [done|by intros [=]]).
  assert (Hs' : Timer.valid s') by (apply run_valid; split; [done|by intros [=]]).
  split; [by apply face_valid|].
  rewrite !face_valid by done. destruct Hs as [Ht _], Hs' as [Ht' _].
  intros [= H1 H2 H3 H4].
  apply Z2N.inj in H1, H2, H3, H4.
  all: Z.to_euclidean_division_equations; lia.
Qed.

Lemma clock_face_reads_time_witness :
  Timer.face (Timer.run Timer.initial [Timer.Toggle; Timer.Tick]) = js "24:59".
Proof.
  destruct (clock_face_reads_time [Timer.Toggle; Timer.Tick] []) as [Hface _].
  rewrite Hface. reflexivity.
Defined.
